(** * espnff: the League / Team / Matchup object graph and its power ranking

    A shallow embedding of [espnff/espnff.py].  Python objects live in an
    object store and are referred to by address, exceptions are results of
    an error monad, and lists are indexed and sliced with Python's rules
    (negative indices, clamped slices, [IndexError] out of range). *)

From Stdlib Require Import ZArith QArith Lia String.
From stdpp Require Import base list sorting.

Local Open Scope Z_scope.

(** ** Python's exceptions, lists and names *)

Module Py.

(** The three classified exceptions of the module, next to the built-in
    exceptions its statements can raise. *)
Inductive exn : Type :=
| PrivateLeagueException (msg : string)
| InvalidLeagueException (msg : string)
| UnknownLeagueException (status : Z)
| AttributeError
| IndexError
| KeyError (key : string)
| NameError (name : string)
| TypeError
| ValueError.

Inductive result (A : Type) : Type :=
| Ok (a : A)
| Raise (e : exn).
Arguments Ok {A} a.
Arguments Raise {A} e.

Definition bind {A B} (c : result A) (k : A → result B) : result B :=
  match c with
  | Ok a => k a
  | Raise e => Raise e
  end.

Definition raises {A} (c : result A) : Prop := ∃ e, c = Raise e.

(** [for x in xs: acc = body(acc, x)], stopping at the first exception. *)
Fixpoint for_each {A S} (body : S → A → result S) (acc : S) (xs : list A)
  : result S :=
  match xs with
  | [] => Ok acc
  | x :: xs' => bind (body acc x) (λ acc', for_each body acc' xs')
  end.

(** [[f(x) for x in xs]], stopping at the first exception. *)
Fixpoint comprehension {A B} (f : A → result B) (xs : list A)
  : result (list B) :=
  match xs with
  | [] => Ok []
  | x :: xs' =>
      bind (f x) (λ y, bind (comprehension f xs') (λ ys, Ok (y :: ys)))
  end.

(** [l[:w]]: a negative bound counts from the end, and both are clamped. *)
Definition slice_to {A} (l : list A) (w : Z) : list A :=
  if 0 <=? w then take (Z.to_nat w) l
  else take (length l - Z.to_nat (- w))%nat l.

(** The position that the subscript [l[i]] denotes. *)
Definition position {A} (l : list A) (i : Z) : result nat :=
  let n := Z.of_nat (length l) in
  if (0 <=? i) && (i <? n) then Ok (Z.to_nat i)
  else if (- n <=? i) && (i <? 0) then Ok (Z.to_nat (n + i))
  else Raise IndexError.

(** [l[i]] *)
Definition getitem {A} (l : list A) (i : Z) : result A :=
  bind (position l i) (λ p,
    match l !! p with
    | Some x => Ok x
    | None => Raise IndexError
    end).

(** [l[i] += d] on a list of numbers. *)
Definition iadd_item (l : list Z) (i : Z) (d : Z) : result (list Z) :=
  bind (position l i) (λ p,
    match l !! p with
    | Some x => Ok (<[p := x + d]> l)
    | None => Raise IndexError
    end).

(** A stable sort: the insertion sort that places an element before the
    first one it does not exceed, so equal elements keep their order. *)
Section Sort.
Context {A : Type} (le : A → A → bool).

Fixpoint insert_sorted (x : A) (l : list A) : list A :=
  match l with
  | [] => [x]
  | y :: l' => if le x y then x :: l else y :: insert_sorted x l'
  end.

Definition sort_with (xs : list A) : list A := foldr insert_sorted [] xs.
End Sort.

(** [sorted(xs, key=key, reverse=False)] *)
Definition sorted {A} (key : A → Z) (xs : list A) : list A :=
  sort_with (λ x y, key x <=? key y) xs.

(** The first binding of [name] in a scope. *)
Fixpoint assoc_find {V} (name : string) (scope : list (string * V)) : option V :=
  match scope with
  | [] => None
  | (n, v) :: scope' =>
      if String.eqb name n then Some v else assoc_find name scope'
  end.

End Py.

Import Py.

#[global] Instance result_ret : MRet result := λ _ a, Ok a.
#[global] Instance result_bind : MBind result := λ _ _ k c, Py.bind c k.

(** ** The object graph *)

(** What a schedule slot or a side of a matchup holds: the raw team id of the
    feed, or (once linked) a reference to a [Team] object of the league. *)
Inductive team_ref : Type :=
| RawId (id : Z)
| TeamObj (addr : nat).

(** A [Team] object; of its display attributes only [owner] is read again.
    Scores are exact numbers in the unit of the feed. *)
Record Team : Type := mkTeam {
  team_id : Z;
  owner : string;
  scores : list Z;
  schedule : list team_ref;
  mov : list Z
}.

(** A [League] object together with the store of the [Team] objects it
    created; [teams] holds their addresses in the order of [self.teams], and
    [status] is unset until the first request. *)
Record League : Type := mkLeague {
  league_id : Z;
  year : Z;
  status : option Z;
  store : list Team;
  teams : list nat
}.

(** A method of a constructed league: it may raise, and it leaves a league
    state behind either way. *)
Definition method (A : Type) : Type := League → result A * League.

(** The object at address [a]; the error stands for a dangling address,
    which no league built by [League.__init__] holds. *)
Definition team_at (st : list Team) (a : nat) : result Team :=
  match st !! a with
  | Some t => Ok t
  | None => Raise AttributeError
  end.

(** [x.team_id]: an int has no such attribute. *)
Definition ref_team_id (st : list Team) (x : team_ref) : result Z :=
  match x with
  | RawId _ => Raise AttributeError
  | TeamObj a => t ← team_at st a; Ok (team_id t)
  end.

(** The sort key [lambda x: x.team_id] on addresses. *)
Definition team_id_at (st : list Team) (a : nat) : Z :=
  match st !! a with
  | Some t => team_id t
  | None => 0
  end.

(** ** The two feeds, as parsed JSON *)

(** [d[key]] for a key that the document may lack. *)
Definition item {A} (key : string) (field : option A) : result A :=
  match field with
  | Some v => Ok v
  | None => Raise (KeyError key)
  end.

Module SettingsJson.
(** [scheduleItems[i]['matchups'][0]] *)
Record matchup : Type := {
  isBye : bool;
  awayTeamId : Z;
  homeTeamId : Z;
  awayTeamScores : list Z;
  homeTeamScores : list Z
}.
Record schedule_item : Type := { matchups : list matchup }.
Record owner : Type := { firstName : string; lastName : string }.
Record team_division : Type := {
  divisionId : option Z;
  divisionName : option string
}.
Record team_record : Type := {
  overallWins : option Z;
  overallLosses : option Z;
  pointsFor : option Z;
  pointsAgainst : option Z
}.
(** An entry of [teams].  The entries that [Team.__init__] only copies into
    display attributes may be missing from the document. *)
Record team : Type := {
  teamId : Z;
  teamAbbrev : option string;
  teamLocation : option string;
  teamNickname : option string;
  division : option team_division;
  record : option team_record;
  owners : list owner;
  scheduleItems : list schedule_item
}.
(** [teams] lists the values of the dict in iteration order. *)
Record leaguesettings : Type := {
  teams : list team;
  finalRegularSeasonMatchupPeriodId : Z
}.
End SettingsJson.

Module ScoreboardJson.
Record team : Type := { home : bool; teamId : Z; score : Z }.
Record matchup : Type := { teams : list team; bye : bool }.
Record scoreboard : Type := { matchups : list matchup }.
End ScoreboardJson.

Record error_item : Type := { message : string }.

Record Json : Type := {
  error : option (list error_item);
  leaguesettings : option SettingsJson.leaguesettings;
  scoreboard_of : option ScoreboardJson.scoreboard
}.

(** The response of [requests.get]; [body] is [None] when [r.json()] cannot
    decode it. *)
Record Response : Type := { status_code : Z; body : option Json }.

(** [r.json()] *)
Definition json (r : Response) : result Json :=
  match body r with
  | Some data => Ok data
  | None => Raise ValueError
  end.

(** [data['error'][0]['message']] *)
Definition error_message (data : Json) : result string :=
  errs ← item "error" (error data);
  e ← getitem errs 0;
  Ok (message e).

(** ** [Team.__init__] and [Team._fetch_schedule] *)

(** One pass of the loop of [_fetch_schedule]: the score and the opponent id
    that the item contributes.  On a bye both come from the home side. *)
Definition schedule_entry (self_id : Z) (it : SettingsJson.schedule_item)
  : result (Z * team_ref) :=
  m ← getitem (SettingsJson.matchups it) 0;
  if negb (SettingsJson.isBye m) then
    if SettingsJson.awayTeamId m =? self_id then
      score ← getitem (SettingsJson.awayTeamScores m) 0;
      Ok (score, RawId (SettingsJson.homeTeamId m))
    else
      score ← getitem (SettingsJson.homeTeamScores m) 0;
      Ok (score, RawId (SettingsJson.awayTeamId m))
  else
    score ← getitem (SettingsJson.homeTeamScores m) 0;
    Ok (score, RawId (SettingsJson.homeTeamId m)).

(** [_fetch_schedule]: appends to [self.scores] and [self.schedule]. *)
Definition _fetch_schedule (self : Team) (data : SettingsJson.team)
  : result Team :=
  for_each
    (λ self it,
       '(score, opponentId) ← schedule_entry (team_id self) it;
       Ok (mkTeam (team_id self) (owner self) (scores self ++ [score])
                  (schedule self ++ [opponentId]) (mov self)))
    self (SettingsJson.scheduleItems data).

(** The reads behind [team_abbrev], [team_name], [division_id],
    [division_name], [wins], [losses], [points_for] and [points_against], in
    the order of [Team.__init__].  Nothing reads these attributes again, so
    the values are not kept; a missing entry raises [KeyError]. *)
Definition read_display_entries (data : SettingsJson.team) : result unit :=
  _ ← item "teamAbbrev" (SettingsJson.teamAbbrev data);
  _ ← item "teamLocation" (SettingsJson.teamLocation data);
  _ ← item "teamNickname" (SettingsJson.teamNickname data);
  d ← item "division" (SettingsJson.division data);
  _ ← item "divisionId" (SettingsJson.divisionId d);
  d ← item "division" (SettingsJson.division data);
  _ ← item "divisionName" (SettingsJson.divisionName d);
  r ← item "record" (SettingsJson.record data);
  _ ← item "overallWins" (SettingsJson.overallWins r);
  r ← item "record" (SettingsJson.record data);
  _ ← item "overallLosses" (SettingsJson.overallLosses r);
  r ← item "record" (SettingsJson.record data);
  _ ← item "pointsFor" (SettingsJson.pointsFor r);
  r ← item "record" (SettingsJson.record data);
  _ ← item "pointsAgainst" (SettingsJson.pointsAgainst r);
  Ok ().

Definition Team_init (data : SettingsJson.team) : result Team :=
  _ ← read_display_entries data;
  o ← getitem (SettingsJson.owners data) 0;
  let self :=
    mkTeam (SettingsJson.teamId data)
           (SettingsJson.firstName o ++ " " ++ SettingsJson.lastName o)%string
           [] [] [] in
  _fetch_schedule self data.

(** ** [League._fetch_teams] *)

(** [matchup == opponent.team_id] *)
Definition matches (st : list Team) (matchup : team_ref) (b : nat) : bool :=
  match matchup, st !! b with
  | RawId id, Some t => id =? team_id t
  | _, _ => false
  end.

(** The loop [for opponent in self.teams] for one schedule slot: every
    matching team is assigned in turn, so the last one stays. *)
Definition link_entry (st : list Team) (addrs : list nat) (matchup : team_ref)
  : team_ref :=
  foldl (λ cur b, if matches st matchup b then TeamObj b else cur) matchup addrs.

(** "replace opponentIds in schedule with team instances", for one team. *)
Definition link_team (addrs : list nat) (st : list Team) (a : nat)
  : result (list Team) :=
  t ← team_at st a;
  Ok (<[a := mkTeam (team_id t) (owner t) (scores t)
                    (link_entry st addrs <$> schedule t) (mov t)]> st).

(** [opponent.scores[week]] *)
Definition opponent_score (st : list Team) (opponent : team_ref) (week : nat)
  : result Z :=
  match opponent with
  | RawId _ => Raise AttributeError
  | TeamObj b => t ← team_at st b; getitem (scores t) (Z.of_nat week)
  end.

(** The margins of [enumerate(team.schedule)] from index [week] on. *)
Fixpoint margins (st : list Team) (own : list Z) (week : nat)
  (sched : list team_ref) : result (list Z) :=
  match sched with
  | [] => Ok []
  | opponent :: rest =>
      mine ← getitem own (Z.of_nat week);
      theirs ← opponent_score st opponent week;
      ms ← margins st own (S week) rest;
      Ok ((mine - theirs) :: ms)
  end.

(** "calculate margin of victory", for one team. *)
Definition mov_team (st : list Team) (a : nat) : result (list Team) :=
  t ← team_at st a;
  ms ← margins st (scores t) 0 (schedule t);
  Ok (<[a := mkTeam (team_id t) (owner t) (scores t) (schedule t)
                    (mov t ++ ms)]> st).

(** [_fetch_teams]: create the teams, link the schedules, compute the
    margins, sort by team id.  An exception aborts the construction. *)
Definition _fetch_teams (self : League) (data : Json) : result League :=
  settings ← item "leaguesettings" (leaguesettings data);
  created ← comprehension Team_init (SettingsJson.teams settings);
  let st0 := store self ++ created in
  let addrs := teams self ++ seq (length (store self)) (length created) in
  st1 ← for_each (link_team addrs) st0 addrs;
  st2 ← for_each mov_team st1 addrs;
  Ok (mkLeague (league_id self) (year self) (status self) st2
               (sorted (team_id_at st2) addrs)).

(** ** [League._fetch_league] and [League.__init__] *)

(** The classification of a response by its status, shared by
    [_fetch_league] and [scoreboard]; [Ok] means status 200. *)
Definition check_status (st : Z) (data : Json) : result unit :=
  if st =? 401 then msg ← error_message data; Raise (PrivateLeagueException msg)
  else if st =? 404 then msg ← error_message data; Raise (InvalidLeagueException msg)
  else if negb (st =? 200) then Raise (UnknownLeagueException st)
  else Ok ().

(** [r] is the response to the [leagueSettings] request. *)
Definition _fetch_league (self : League) (r : Response) : result League :=
  let self := mkLeague (league_id self) (year self) (Some (status_code r))
                       (store self) (teams self) in
  data ← json r;
  _ ← check_status (status_code r) data;
  _fetch_teams self data.

Definition League_init (league_id year : Z) (r : Response) : result League :=
  _fetch_league (mkLeague league_id year None [] []) r.

(** ** [League.power_rankings] *)

(** The body of the inner loop: [opp] is computed for every pair, the
    counter moves only on a strictly positive margin. *)
Definition count_win (st : list Team) (wins : list Z) (p : Z * team_ref)
  : result (list Z) :=
  let '(m, opponent) := p in
  tid ← ref_team_id st opponent;
  let opp := tid - 1 in
  if 0 <? m then iadd_item wins opp 1 else Ok wins.

(** [wins = [0]*32] and the loop over
    [zip(team.mov[:week], team.schedule[:week])]. *)
Definition win_row (st : list Team) (week : Z) (t : Team) : result (list Z) :=
  for_each (count_win st) (replicate 32 0)
           (zip (slice_to (mov t) week) (slice_to (schedule t) week)).

Definition teams_sorted (self : League) : list nat :=
  sorted (team_id_at (store self)) (teams self).

(** The loop [for team in teams_sorted] that fills [win_matrix]. *)
Definition win_matrix (self : League) (week : Z) : result (list (list Z)) :=
  comprehension
    (λ a, t ← team_at (store self) a; win_row (store self) week t)
    (teams_sorted self).

Definition sum_Z (l : list Z) : Z := foldr Z.add 0 l.

(** Modelled from the spec: the row-sum vector of section 4.2, the direct
    scores; it belongs to [utils.two_step_dominance], whose source is not at
    hand. *)
Definition row_sums (X : list (list Z)) : list Z := sum_Z <$> X.

(** Modelled from the spec: the product of a row with a vector, a step of
    the matrix-vector product of section 4.2; a column without an entry in
    the vector contributes nothing. *)
Fixpoint dot (row v : list Z) : Z :=
  match row, v with
  | x :: row', y :: v' => x * y + dot row' v'
  | _, _ => 0
  end.

(** Modelled from the spec: the matrix-vector product of section 4.2. *)
Definition mat_vec (X : list (list Z)) (v : list Z) : list Z :=
  (λ row, dot row v) <$> X.

(** Modelled from the spec: [utils.two_step_dominance] is imported by the
    module and its source is not at hand.  Following section 4.2, the
    row-sum vector is computed first, then the product of the win matrix
    with that vector, and the two are added. *)
Definition two_step_dominance (X : list (list Z)) : list Z :=
  zip_with Z.add (row_sums X) (mat_vec X (row_sums X)).

(** An entry of the ranking: the team and its power score. *)
Definition entry : Type := nat * Q.

Section Ranker.
(** The blend of the dominance score with the points per game; the spec
    leaves the weighting to the implementation. *)
Variable blend : Z → Q → Q.

(** Modelled from the spec: the points-per-game signal of section 4.3,
    over the games played through [week]; with no game played every team
    gets the same score. *)
Definition final_score (dominance : Z) (t : Team) (week : Z) : Q :=
  let played := slice_to (scores t) week in
  match played with
  | [] => 0%Q
  | _ :: _ => blend dominance (sum_Z played # Pos.of_nat (length played))
  end.

(** Modelled from the spec: the order of the ranking of section 4.3,
    descending by score, ties by ascending team id. *)
Definition rank_le (st : list Team) (e1 e2 : entry) : bool :=
  match (e2.2 ?= e1.2)%Q with
  | Lt => true
  | Eq => team_id_at st e1.1 <=? team_id_at st e2.1
  | Gt => false
  end.

(** Modelled from the spec: [utils.power_points] is imported by the module
    and its source is not at hand.  Following section 4.3, it pairs every
    team with its final score and sorts the pairs by [rank_le]. *)
Definition power_points (st : list Team) (dominance : list Z)
  (teams : list nat) (week : Z) : result (list entry) :=
  entries ← comprehension
              (λ '(d, a), t ← team_at st a; Ok (a, final_score d t week))
              (zip dominance teams);
  Ok (sort_with (rank_le st) entries).

(** [power_rankings]: the win matrix, its dominance scores, the ranking.
    No statement of the method writes to the league or to a team. *)
Definition power_rankings (week : Z) : method (list entry) := λ self,
  (win_matrix ← win_matrix self week;
   let dominance_matrix := two_step_dominance win_matrix in
   power_points (store self) dominance_matrix (teams_sorted self) week,
   self).
End Ranker.

(** ** [League.power_rankings], statement by statement on the object heap *)

(** The method once more, this time with every list and every [Team] an
    object of a heap: the lists that the method creates are allocated, and
    [wins[opp] += 1] and [win_matrix.append(wins)] are writes to the heap,
    as they are in Python.  An address is an index into the heap. *)
Module Imp.

(** What a list holds or a variable is bound to: a number, or a reference
    to an object. *)
Inductive value : Type :=
| VInt (z : Z)
| VRef (a : nat).

(** The attributes [scores], [schedule] and [mov] of a team, and [teams] of
    a league, hold references to list objects. *)
Inductive object : Type :=
| OList (items : list value)
| OTeam (team_id : Z) (owner : string) (scores schedule mov : nat)
| OLeague (league_id year : Z) (status : option Z) (teams : nat).

Abbreviation heap := (list object).

(** A statement: it runs on a heap, may raise, and leaves a heap behind. *)
Definition prog (A : Type) : Type := heap → result A * heap.

Definition ret {A} (a : A) : prog A := λ h, (Ok a, h).

Definition raise {A} (e : exn) : prog A := λ h, (Raise e, h).

Definition bind {A B} (c : prog A) (k : A → prog B) : prog B := λ h,
  match c h with
  | (Ok a, h') => k a h'
  | (Raise e, h') => (Raise e, h')
  end.

#[global] Instance prog_ret : MRet prog := λ _ a, ret a.
#[global] Instance prog_bind : MBind prog := λ _ _ k c, bind c k.

(** A new object; its address is the next free one. *)
Definition alloc (o : object) : prog nat := λ h, (Ok (length h), h ++ [o]).

Definition load (a : nat) : prog object := λ h,
  (match h !! a with
   | Some o => Ok o
   | None => Raise AttributeError
   end, h).

(** The object at [a] is replaced: a list is mutated in place. *)
Definition store (a : nat) (o : object) : prog unit := λ h,
  (Ok (), <[a := o]> h).

Definition load_list (a : nat) : prog (list value) :=
  o ← load a;
  match o with
  | OList items => ret items
  | _ => raise TypeError
  end.

(** The number that a value is, for [mov > 0] and for the sums. *)
Definition as_int (v : value) : prog Z :=
  match v with
  | VInt z => ret z
  | VRef _ => raise TypeError
  end.

(** [v.team_id] *)
Definition team_id_of (v : value) : prog Z :=
  match v with
  | VInt _ => raise AttributeError
  | VRef a =>
      o ← load a;
      match o with
      | OTeam id _ _ _ _ => ret id
      | _ => raise AttributeError
      end
  end.

(** [for x in xs: body(x)] *)
Fixpoint for_each {A} (body : A → prog unit) (xs : list A) : prog unit :=
  match xs with
  | [] => ret ()
  | x :: xs' => _ ← body x; for_each body xs'
  end.

(** [[f(x) for x in xs]] as a Python value list, left to right. *)
Fixpoint map_each {A B} (f : A → prog B) (xs : list A) : prog (list B) :=
  match xs with
  | [] => ret []
  | x :: xs' => y ← f x; ys ← map_each f xs'; ret (y :: ys)
  end.

(** [sorted(l, key=lambda x: x.team_id, reverse=False)]: the keys are
    computed first, the result is a new list. *)
Definition sorted_by_team_id (l : nat) : prog nat :=
  items ← load_list l;
  keys ← map_each team_id_of items;
  alloc (OList (sort_with (λ x y : Z * value, x.1 <=? y.1) (zip keys items)).*2).

(** [v.mov[:week]] and [v.schedule[:week]]: new lists. *)
Definition mov_slice (v : value) (week : Z) : prog nat :=
  match v with
  | VInt _ => raise AttributeError
  | VRef a =>
      o ← load a;
      match o with
      | OTeam _ _ _ _ mov => items ← load_list mov; alloc (OList (slice_to items week))
      | _ => raise AttributeError
      end
  end.

Definition schedule_slice (v : value) (week : Z) : prog nat :=
  match v with
  | VInt _ => raise AttributeError
  | VRef a =>
      o ← load a;
      match o with
      | OTeam _ _ _ schedule _ =>
          items ← load_list schedule; alloc (OList (slice_to items week))
      | _ => raise AttributeError
      end
  end.

(** [l[i] += 1] on the list object at [l]. *)
Definition iadd_one (l : nat) (i : Z) : prog unit :=
  items ← load_list l;
  match position items i with
  | Ok p =>
      match items !! p with
      | Some v => x ← as_int v; store l (OList (<[p := VInt (x + 1)]> items))
      | None => raise IndexError
      end
  | Raise e => raise e
  end.

(** [l.append(v)] *)
Definition append (l : nat) (v : value) : prog unit :=
  items ← load_list l; store l (OList (items ++ [v])).

(** The body of the inner loop. *)
Definition count_win (wins : nat) (p : value * value) : prog unit :=
  let '(mov, opponent) := p in
  tid ← team_id_of opponent;
  let opp := tid - 1 in
  m ← as_int mov;
  if 0 <? m then iadd_one wins opp else ret ().

(** The body of the loop [for team in teams_sorted]. *)
Definition add_row (win_matrix : nat) (week : Z) (team : value) : prog unit :=
  wins ← alloc (OList (replicate 32 (VInt 0)));
  movs ← mov_slice team week;
  opponents ← schedule_slice team week;
  ms ← load_list movs;
  os ← load_list opponents;
  _ ← for_each (count_win wins) (zip ms os);
  append win_matrix (VRef wins).

(** The numbers of the list of lists at [m]. *)
Definition read_matrix (m : nat) : prog (list (list Z)) :=
  rows ← load_list m;
  map_each (λ row,
              match row with
              | VRef a => items ← load_list a; map_each as_int items
              | VInt _ => raise TypeError
              end) rows.

(** Modelled from the spec: [utils.two_step_dominance] on the heap.  Its
    source is not at hand; by sections 4.2 and 5 it computes the scores from
    the numbers of the matrix and has no side effect, so it reads the
    matrix and returns a new list. *)
Definition two_step_dominance (win_matrix : nat) : prog nat :=
  X ← read_matrix win_matrix;
  alloc (OList (VInt <$> two_step_dominance X)).

(** Modelled from the spec: the final score of section 4.3 from the scores
    of a team, as [final_score] has it. *)
Definition points_score (blend : Z → Q → Q) (dominance : Z) (points : list Z)
  (week : Z) : Q :=
  let played := slice_to points week in
  match played with
  | [] => 0%Q
  | _ :: _ => blend dominance (sum_Z played # Pos.of_nat (length played))
  end.

(** Modelled from the spec: the order of the ranking of section 4.3 on
    entries that carry the team id. *)
Definition ranks_le (e1 e2 : Z * entry) : bool :=
  match (e2.2.2 ?= e1.2.2)%Q with
  | Lt => true
  | Eq => e1.1 <=? e2.1
  | Gt => false
  end.

(** Modelled from the spec: the entry of the ranking for one team. *)
Definition rank_entry (blend : Z → Q → Q) (week : Z) (p : Z * value)
  : prog (Z * entry) :=
  let '(d, team) := p in
  match team with
  | VInt _ => raise AttributeError
  | VRef a =>
      o ← load a;
      match o with
      | OTeam id _ scores _ _ =>
          items ← load_list scores;
          points ← map_each as_int items;
          ret (id, (a, points_score blend d points week))
      | _ => raise AttributeError
      end
  end.

(** Modelled from the spec: [utils.power_points] on the heap.  Its source
    is not at hand; by sections 4.3 and 5 it reads the dominance scores, the
    teams and their scores, has no side effect, and returns the pairs of
    team and score in the order of the ranking. *)
Definition power_points (blend : Z → Q → Q) (dominance teams : nat) (week : Z)
  : prog (list entry) :=
  ds ← load_list dominance;
  scores ← map_each as_int ds;
  ts ← load_list teams;
  entries ← map_each (rank_entry blend week) (zip scores ts);
  ret (sort_with ranks_le entries).*2.

(** [self.teams] *)
Definition teams_of (self : nat) : prog nat :=
  o ← load self;
  match o with
  | OLeague _ _ _ teams => ret teams
  | _ => raise AttributeError
  end.

(** The method, line by line. *)
Definition power_rankings (blend : Z → Q → Q) (self : nat) (week : Z)
  : prog (list entry) :=
  win_matrix ← alloc (OList []);
  teams ← teams_of self;
  teams_sorted ← sorted_by_team_id teams;
  ts ← load_list teams_sorted;
  _ ← for_each (add_row win_matrix week) ts;
  dominance_matrix ← two_step_dominance win_matrix;
  power_rank ← power_points blend dominance_matrix teams_sorted week;
  ret power_rank.

End Imp.

(** ** [Matchup] *)

Record Matchup : Type := mkMatchup {
  home_team : team_ref;
  home_score : Z;
  away_team : option team_ref;
  away_score : option Z
}.

(** The branch of [_fetch_matchup_info] that ran. *)
Inductive branch : Type := IfBranch | ElifBranch | ElseBranch.

(** [self.data['teams'][0]['home'] and not self.data['bye']], the test of
    the [if] and, verbatim, of the [elif]. *)
Definition home_first (data : ScoreboardJson.matchup) : result bool :=
  t0 ← getitem (ScoreboardJson.teams data) 0;
  Ok (ScoreboardJson.home t0 && negb (ScoreboardJson.bye data)).

(** [_fetch_matchup_info], with the branch it took. *)
Definition _fetch_matchup_info (data : ScoreboardJson.matchup)
  : result (branch * Matchup) :=
  c1 ← home_first data;
  if (c1 : bool) then
    t0 ← getitem (ScoreboardJson.teams data) 0;
    t1 ← getitem (ScoreboardJson.teams data) 1;
    Ok (IfBranch,
        mkMatchup (RawId (ScoreboardJson.teamId t0)) (ScoreboardJson.score t0)
                  (Some (RawId (ScoreboardJson.teamId t1)))
                  (Some (ScoreboardJson.score t1)))
  else
    c2 ← home_first data;
    if (c2 : bool) then
      t1 ← getitem (ScoreboardJson.teams data) 1;
      t0 ← getitem (ScoreboardJson.teams data) 0;
      Ok (ElifBranch,
          mkMatchup (RawId (ScoreboardJson.teamId t1)) (ScoreboardJson.score t1)
                    (Some (RawId (ScoreboardJson.teamId t0)))
                    (Some (ScoreboardJson.score t0)))
    else
      t0 ← getitem (ScoreboardJson.teams data) 0;
      Ok (ElseBranch,
          mkMatchup (RawId (ScoreboardJson.teamId t0)) (ScoreboardJson.score t0)
                    None None).

Definition Matchup_init (data : ScoreboardJson.matchup) : result Matchup :=
  '(_, self) ← _fetch_matchup_info data; Ok self.

(** ** [League.scoreboard] *)

(** [x == team.team_id] for a side of a matchup. *)
Definition is_team_id (x : team_ref) (id : Z) : bool :=
  match x with
  | RawId i => i =? id
  | TeamObj _ => false
  end.

(** The two [if]s of the inner loop, for the team at address [a]. *)
Definition resolve_sides (id : Z) (a : nat) (m : Matchup) : Matchup :=
  let h := if is_team_id (home_team m) id then TeamObj a else home_team m in
  let aw :=
    match away_team m with
    | Some x => if is_team_id x id then Some (TeamObj a) else Some x
    | None => None
    end in
  mkMatchup h (home_score m) aw (away_score m).

Definition resolve_team (st : list Team) (res : list Matchup) (a : nat)
  : result (list Matchup) :=
  t ← team_at st a; Ok (resolve_sides (team_id t) a <$> res).

(** [r] is the response to the [scoreboard] request for [week]. *)
Definition scoreboard (r : Response) : method (list Matchup) := λ self,
  let self := mkLeague (league_id self) (year self) (Some (status_code r))
                       (store self) (teams self) in
  (data ← json r;
   _ ← check_status (status_code r) data;
   board ← item "scoreboard" (scoreboard_of data);
   res ← comprehension Matchup_init (ScoreboardJson.matchups board);
   for_each (resolve_team (store self)) res (teams self),
   self).

(** ** [League.schedule_for_sim] *)

(** The values that the names of the module are bound to. *)
Inductive pyobj : Type :=
| PyModule
| PyFunction
| PyClass
| PyInt (z : Z).

(** The names bound at the top level of [espnff.py]. *)
Definition module_globals : list (string * pyobj) :=
  [("requests", PyModule);
   ("two_step_dominance", PyFunction); ("power_points", PyFunction);
   ("ESPNFFException", PyClass); ("PrivateLeagueException", PyClass);
   ("InvalidLeagueException", PyClass); ("UnknownLeagueException", PyClass);
   ("League", PyClass); ("Team", PyClass); ("Matchup", PyClass)]%string.

(** The built-in names that the module uses; the built-in namespace holds
    more names, none of them [data]. *)
Definition builtins : list (string * pyobj) :=
  [("Exception", PyClass); ("object", PyClass); ("sorted", PyFunction);
   ("enumerate", PyClass); ("zip", PyClass); ("int", PyClass);
   ("range", PyClass); ("str", PyClass)]%string.

(** A name that the function body never assigns is looked up in the module
    and then among the built-ins. *)
Definition load_global (name : string) : result pyobj :=
  match assoc_find name (module_globals ++ builtins) with
  | Some v => Ok v
  | None => Raise (NameError name)
  end.

(** [v[key]]: none of the values above can be subscripted by a string. *)
Definition subscript (v : pyobj) (key : string) : result pyobj :=
  Raise TypeError.

(** [v + 1] as the bound of [range]. *)
Definition plus_one (v : pyobj) : result Z :=
  match v with
  | PyInt z => Ok (z + 1)
  | _ => Raise TypeError
  end.

(** A row of the simulation schedule. *)
Definition sim_row : Type := string * string * Z * option Z * Z.

(** [x.owner] for a side of a matchup. *)
Definition side_owner (st : list Team) (x : option team_ref) : result string :=
  match x with
  | Some (TeamObj a) => t ← team_at st a; Ok (owner t)
  | _ => Raise AttributeError
  end.

Definition sim_rows (st : list Team) (week : Z) (board : list Matchup)
  : result (list sim_row) :=
  comprehension
    (λ each,
       h ← side_owner st (Some (home_team each));
       a ← side_owner st (away_team each);
       Ok (h, a, home_score each, away_score each, week))
    board.

(** The loop [for week in range(...)]: one scoreboard request per week,
    every matchup of the week appended to [schedule]. *)
Fixpoint sim_weeks (fetch : Z → Response) (weeks : list Z)
  (schedule : list sim_row) : method (list sim_row) := λ self,
  match weeks with
  | [] => (Ok schedule, self)
  | week :: rest =>
      match scoreboard (fetch week) self with
      | (Ok board, self') =>
          match sim_rows (store self') week board with
          | Ok rows => sim_weeks fetch rest (schedule ++ rows) self'
          | Raise e => (Raise e, self')
          end
      | (Raise e, self') => (Raise e, self')
      end
  end.

(** [range(1, stop)] *)
Definition range_from_1 (stop : Z) : list Z :=
  (λ i, Z.of_nat i + 1) <$> seq 0 (Z.to_nat (stop - 1)).

(** [fetch week] is the response to the [scoreboard] request for [week]. *)
Definition schedule_for_sim (fetch : Z → Response) : method (list sim_row) :=
  λ self,
  match (data ← load_global "data";
         settings ← subscript data "leaguesettings";
         final ← subscript settings "finalRegularSeasonMatchupPeriodId";
         plus_one final) with
  | Ok stop => sim_weeks fetch (range_from_1 stop) [] self
  | Raise e => (Raise e, self)
  end.

(** ** A league of three teams over three weeks *)

Module Demo.
Import SettingsJson.

Definition game (away home awayScore homeScore : Z) : schedule_item :=
  {| matchups := [ {| isBye := false; awayTeamId := away; homeTeamId := home;
                      awayTeamScores := [awayScore];
                      homeTeamScores := [homeScore] |} ] |}.

Definition bye_week (id sc : Z) : schedule_item :=
  {| matchups := [ {| isBye := true; awayTeamId := 0; homeTeamId := id;
                      awayTeamScores := []; homeTeamScores := [sc] |} ] |}.

Definition team_json (id : Z) (first last : string)
  (items : list schedule_item) : team :=
  {| teamId := id;
     teamAbbrev := Some first;
     teamLocation := Some "Team"%string;
     teamNickname := Some last;
     division := Some {| divisionId := Some 0;
                         divisionName := Some "East"%string |};
     record := Some {| overallWins := Some 0; overallLosses := Some 0;
                       pointsFor := Some 0; pointsAgainst := Some 0 |};
     owners := [ {| firstName := first; lastName := last |} ];
     scheduleItems := items |}.

(** Week 1: team 1 beats team 2 at home; week 2: team 2 beats team 3 at
    home; week 3: team 1 wins at team 3.  The third team of each week has
    a bye.  The feed lists team 2 first. *)
Definition week1 := game 2 1 90 100.
Definition week2 := game 3 2 85 95.
Definition week3 := game 1 3 110 60.

Definition settings : leaguesettings :=
  {| teams :=
       [ team_json 2 "Bo" "Two" [week1; week2; bye_week 2 75];
         team_json 1 "Al" "One" [week1; bye_week 1 70; week3];
         team_json 3 "Cy" "Three" [bye_week 3 80; week2; week3] ];
     finalRegularSeasonMatchupPeriodId := 3 |}.

Definition response : Response :=
  {| status_code := 200;
     body := Some (Build_Json None (Some settings) None) |}.

(** The league that [League(7, 2017)] builds from it. *)
Definition league : League :=
  mkLeague 7 2017 (Some 200)
    [ mkTeam 2 "Bo Two" [90; 95; 75] [TeamObj 1; TeamObj 2; TeamObj 0]
             [-10; 10; 0];
      mkTeam 1 "Al One" [100; 70; 110] [TeamObj 0; TeamObj 1; TeamObj 2]
             [10; 0; 50];
      mkTeam 3 "Cy Three" [80; 85; 60] [TeamObj 2; TeamObj 0; TeamObj 1]
             [0; -10; -50] ]
    [1; 0; 2]%nat.

(** A weighting for the ranker: the dominance score counts a hundredfold,
    the points per game in hundredths. *)
Definition blend (dominance : Z) (ppg : Q) : Q :=
  (inject_Z (100 * dominance) + ppg / 100)%Q.
End Demo.

(** ** Further inputs *)

Module Inputs.
(** A 401 answer with its error message. *)
Definition denied : Response :=
  {| status_code := 401;
     body := Some (Build_Json (Some [ {| message := "No access" |} ])
                              None None) |}.

(** A 500 answer whose body is not JSON (an error page). *)
Definition outage : Response := {| status_code := 500; body := None |}.

(** A 401 answer whose document has no [error] entry. *)
Definition bare_denial : Response :=
  {| status_code := 401; body := Some (Build_Json None None None) |}.

(** A league state in which team 1 has two margins and one opponent. *)
Definition skewed : League :=
  mkLeague 7 2017 (Some 200)
    [ mkTeam 1 "Al One" [100; 70] [TeamObj 1] [10; 20];
      mkTeam 2 "Bo Two" [90; 50] [TeamObj 0; TeamObj 0] [-10; -20] ]
    [0; 1]%nat.

(** A matchup of two teams in which the first listed is the away side. *)
Definition away_first : ScoreboardJson.matchup :=
  {| ScoreboardJson.teams :=
       [ {| ScoreboardJson.home := false; ScoreboardJson.teamId := 4;
            ScoreboardJson.score := 88 |};
         {| ScoreboardJson.home := true; ScoreboardJson.teamId := 9;
            ScoreboardJson.score := 77 |} ];
     ScoreboardJson.bye := false |}.
End Inputs.

Module Board.
(** The scoreboard of week 1 of the demonstration league: team 1 at home
    against team 2, and a game of a team 9 that the league does not have. *)
Definition side (home : bool) (id sc : Z) : ScoreboardJson.team :=
  {| ScoreboardJson.home := home; ScoreboardJson.teamId := id;
     ScoreboardJson.score := sc |}.

Definition week1 : ScoreboardJson.scoreboard :=
  {| ScoreboardJson.matchups :=
       [ {| ScoreboardJson.teams := [side true 1 100; side false 2 90];
            ScoreboardJson.bye := false |};
         {| ScoreboardJson.teams := [side true 9 80];
            ScoreboardJson.bye := true |} ] |}.

Definition response : Response :=
  {| status_code := 200; body := Some (Build_Json None None (Some week1)) |}.
End Board.

(** ** The vocabulary of the properties *)

(** The pair [(mov, opponent)] is a win recorded in slot [k]. *)
Definition is_win_in_slot (st : list Team) (k : nat) (p : Z * team_ref) : bool :=
  (0 <? p.1) &&
  match ref_team_id st p.2 with
  | Ok tid => tid - 1 =? Z.of_nat k
  | Raise _ => false
  end.

(** How many of the pairs are wins recorded in slot [k]. *)
Definition wins_in_slot (st : list Team) (pairs : list (Z * team_ref)) (k : nat)
  : Z :=
  Z.of_nat (length (filter (λ p, is_win_in_slot st k p) pairs)).

(** The opponent is a linked [Team] whose id fits the 32 slots. *)
Definition in_capacity (st : list Team) (o : team_ref) : Prop :=
  ∃ b tb, o = TeamObj b ∧ st !! b = Some tb ∧ 1 ≤ team_id tb ≤ 32.

(** Up to week [n] every team of the league met linked opponents whose ids
    fit the slots. *)
Definition playable (self : League) (n : nat) : Prop :=
  Forall (λ a, ∃ t, store self !! a = Some t ∧
                Forall (in_capacity (store self)) (take n (schedule t)))
         (teams self).

(** The pairs that the inner loop of [power_rankings] visits for [t]. *)
Definition pairs_through (week : Z) (t : Team) : list (Z * team_ref) :=
  zip (slice_to (mov t) week) (slice_to (schedule t) week).

(** The first [n] weeks of [t], margin and opponent side by side. *)
Definition first_weeks (n : nat) (t : Team) : list (Z * team_ref) :=
  zip (take n (mov t)) (take n (schedule t)).

(** Row [row] has the 32 slots and holds, for the team at [a], the wins
    among [pairs_of] that team, slot by slot. *)
Definition row_counts (st : list Team) (pairs_of : Team → list (Z * team_ref))
  (a : nat) (row : list Z) : Prop :=
  ∃ t, st !! a = Some t ∧ length row = 32%nat ∧
    ∀ k, (k < 32)%nat → row !! k = Some (wins_in_slot st (pairs_of t) k).

Definition ascending_ids (st : list Team) (l : list nat) : Prop :=
  Sorted (λ a b, team_id_at st a ≤ team_id_at st b) l.

(** [matrix[i][j]], zero outside the matrix. *)
Definition cell (X : list (list Z)) (i j : nat) : Z :=
  default 0 (X !! i ≫= (.!! j)).

(** The number of columns of row [i]. *)
Definition width (X : list (list Z)) (i : nat) : nat :=
  length (default [] (X !! i)).

(** The sum of [f j] over [j = 0 .. n-1]. *)
Definition sum_over (n : nat) (f : nat → Z) : Z := sum_Z (f <$> seq 0 n).

(** The scores of section 4.2, written as the sums of its formulas. *)
Definition direct_score (X : list (list Z)) (i : nat) : Z :=
  sum_over (width X i) (cell X i).

Definition indirect_score (X : list (list Z)) (i : nat) : Z :=
  sum_over (width X i) (λ j, cell X i j * direct_score X j).

(** The dominance score that [power_rankings] hands to the ranker for the
    [i]-th team of [teams_sorted]. *)
Definition dominance_at (self : League) (week : Z) (i : nat) : result Z :=
  X ← win_matrix self week;
  match two_step_dominance X !! i with
  | Some d => Ok d
  | None => Raise IndexError
  end.

(** The exception is the classified error that belongs to the status. *)
Inductive classified (st : Z) : exn → Prop :=
| classified_private msg :
    st = 401 → classified st (PrivateLeagueException msg)
| classified_invalid msg :
    st = 404 → classified st (InvalidLeagueException msg)
| classified_unknown :
    st ≠ 401 → st ≠ 404 → st ≠ 200 → classified st (UnknownLeagueException st).

(** The collaborator answers with a JSON document that, for the statuses 401
    and 404, carries the error message. *)
Definition well_formed_response (r : Response) : Prop :=
  ∃ data, body r = Some data ∧
    (status_code r = 401 ∨ status_code r = 404 →
     ∃ msg, error_message data = Ok msg).

(** The margin [m] of team [t] in week [w] against the schedule entry [o]. *)
Definition margin_of (st : list Team) (t : Team) (w : nat) (o : team_ref)
  (m : Z) : Prop :=
  ∃ b tb s s', o = TeamObj b ∧ st !! b = Some tb ∧
    scores t !! w = Some s ∧ scores tb !! w = Some s' ∧ m = s - s'.

(** Every week of [t] has a linked opponent and the margin against it. *)
Definition margins_consistent (st : list Team) (t : Team) : Prop :=
  length (mov t) = length (schedule t) ∧
  ∀ w o, schedule t !! w = Some o →
    ∃ m, mov t !! w = Some m ∧ margin_of st t w o m.

(** What [_fetch_teams] establishes. *)
Definition consistent (self : League) : Prop :=
  teams self ≡ₚ seq 0 (length (store self)) ∧
  Forall (margins_consistent (store self)) (store self).

(** The stores agree on every team's scores. *)
Definition same_scores (st st' : list Team) : Prop :=
  ∀ b, scores <$> st !! b = scores <$> st' !! b.

(** The order of the ranking, as a relation on its entries. *)
Definition ranks_before (st : list Team) (e1 e2 : entry) : Prop :=
  (e2.2 < e1.2)%Q ∨ ((e1.2 == e2.2)%Q ∧ team_id_at st e1.1 ≤ team_id_at st e2.1).

(** The number of strictly positive margins among the pairs. *)
Definition positive_margins (pairs : list (Z * team_ref)) : Z :=
  Z.of_nat (length (filter (λ p, 0 < p.1) pairs)).

(** The stores agree on every team's id. *)
Definition same_ids (st st' : list Team) : Prop :=
  ∀ b, team_id <$> st !! b = team_id <$> st' !! b.

(** Team [t] of the store [st] is what the feed's [td] describes: its id,
    and week by week the score that [_fetch_schedule] reads and, as
    opponent, the team object whose id is the opponent id it reads. *)
Definition built_from (st : list Team) (td : SettingsJson.team) (t : Team)
  : Prop :=
  team_id t = SettingsJson.teamId td ∧
  Forall2 (λ it (p : Z * team_ref),
             ∃ raw b tb,
               schedule_entry (SettingsJson.teamId td) it = Ok (p.1, RawId raw) ∧
               p.2 = TeamObj b ∧ st !! b = Some tb ∧ team_id tb = raw)
          (SettingsJson.scheduleItems td) (zip (scores t) (schedule t)).


(** The first of the addresses whose team has the id. *)
Fixpoint find_team (st : list Team) (addrs : list nat) (id : Z) : option nat :=
  match addrs with
  | [] => None
  | a :: rest => if id =? team_id_at st a then Some a else find_team st rest id
  end.

(** A side of a matchup once the teams [addrs] have been tried on it. *)
Definition resolved_side (st : list Team) (addrs : list nat) (x : team_ref)
  : team_ref :=
  match x with
  | RawId id =>
      match find_team st addrs id with
      | Some a => TeamObj a
      | None => RawId id
      end
  | TeamObj a => TeamObj a
  end.

Definition resolved_matchup (st : list Team) (addrs : list nat) (m : Matchup)
  : Matchup :=
  mkMatchup (resolved_side st addrs (home_team m)) (home_score m)
            (resolved_side st addrs <$> away_team m) (away_score m).


(** The heap value of a schedule entry when team [b] of the store is the
    object at address [f b]. *)
Definition ref_value (f : nat → nat) (x : team_ref) : Imp.value :=
  match x with
  | RawId id => Imp.VInt id
  | TeamObj b => Imp.VRef (f b)
  end.

(** The reference to team [a] of the store. *)
Definition team_value (f : nat → nat) (a : nat) : Imp.value := Imp.VRef (f a).

(** The heap [h] holds the league [lg] at address [self]: the league object
    with its list of teams, and for team [i] of the store the team object at
    address [f i] with its three lists.  The references of the league are
    references to its teams. *)
Definition represents (f : nat → nat) (h : Imp.heap) (self : nat) (lg : League)
  : Prop :=
  (∃ ta, h !! self =
           Some (Imp.OLeague (league_id lg) (year lg) (status lg) ta) ∧
         h !! ta = Some (Imp.OList (team_value f <$> teams lg))) ∧
  Forall (λ a, is_Some (store lg !! a)) (teams lg) ∧
  ∀ i t, store lg !! i = Some t →
    Forall (λ o, ∀ b, o = TeamObj b → is_Some (store lg !! b)) (schedule t) ∧
    ∃ sa ca ma,
      h !! f i = Some (Imp.OTeam (team_id t) (owner t) sa ca ma) ∧
      h !! sa = Some (Imp.OList (Imp.VInt <$> scores t)) ∧
      h !! ca = Some (Imp.OList (ref_value f <$> schedule t)) ∧
      h !! ma = Some (Imp.OList (Imp.VInt <$> mov t)).

(** Every object of [h] is still the same object in [h']. *)
Definition preserved (h h' : Imp.heap) : Prop :=
  ∀ a o, h !! a = Some o → h' !! a = Some o.

(** The same, but for the object at [w]. *)
Definition preserved_but (w : nat) (h h' : Imp.heap) : Prop :=
  ∀ a o, a ≠ w → h !! a = Some o → h' !! a = Some o.

(** The ranking with team [a] of the store written as its address [f a]. *)
Definition placed (f : nat → nat) (out : result (list entry))
  : result (list entry) :=
  match out with
  | Ok ranking => Ok ((λ e : entry, (f e.1, e.2)) <$> ranking)
  | Raise e => Raise e
  end.


(** A pair of the inner loop as the heap has it. *)
Definition heap_pair (f : nat → nat) (p : Z * team_ref)
  : Imp.value * Imp.value :=
  (Imp.VInt p.1, ref_value f p.2).

(** The list of references [refs] holds the rows [X] in the heap [h], none
    of them the list at [wm] itself. *)
Definition holds_rows (h : Imp.heap) (wm : nat) (refs : list Imp.value)
  (X : list (list Z)) : Prop :=
  Forall2 (λ v row, ∃ w, v = Imp.VRef w ∧ w ≠ wm ∧
                         h !! w = Some (Imp.OList (Imp.VInt <$> row)))
          refs X.

(** An entry of the ranking with the id of its team, as the ranker on the
    heap sorts it. *)
Definition keyed (f : nat → nat) (st : list Team) (e : entry) : Z * entry :=
  (team_id_at st e.1, (f e.1, e.2)).

(** A heap for a league: the league object at address 0, its list of teams
    at address 1, and from address [place i] on the object of team [i] of
    the store with its lists of scores, opponents and margins. *)
Definition place (i : nat) : nat := (2 + 4 * i)%nat.

Definition team_cells (i : nat) (t : Team) : list Imp.object :=
  [ Imp.OTeam (team_id t) (owner t)
              (place i + 1)%nat (place i + 2)%nat (place i + 3)%nat;
    Imp.OList (Imp.VInt <$> scores t);
    Imp.OList (ref_value place <$> schedule t);
    Imp.OList (Imp.VInt <$> mov t) ].

Fixpoint team_heap (i : nat) (st : list Team) : list Imp.object :=
  match st with
  | [] => []
  | t :: st' => team_cells i t ++ team_heap (S i) st'
  end.

Definition layout (lg : League) : Imp.heap :=
  Imp.OLeague (league_id lg) (year lg) (status lg) 1
  :: Imp.OList (team_value place <$> teams lg)
  :: team_heap 0 (store lg).
Ltac unfold_bind := unfold mbind, result_bind, Py.bind in *.

(** * Properties *)

(** ** The inner loop of [power_rankings] *)

Section WinRow.
Variable st : list Team.

Lemma position_in_range {A} (l : list A) (i : Z) :
  0 ≤ i < Z.of_nat (length l) → position l i = Ok (Z.to_nat i).
Proof.
  intros Hi. unfold position.
  destruct (0 <=? i) eqn:E1; [|lia].
  destruct (i <? Z.of_nat (length l)) eqn:E2; [done|lia].
Qed.

Lemma count_win_in_capacity wins m o :
  in_capacity st o → length wins = 32%nat →
  ∃ wins', count_win st wins (m, o) = Ok wins' ∧ length wins' = 32%nat ∧
    ∀ k, wins' !! k =
         (λ x, x + if is_win_in_slot st k (m, o) then 1 else 0) <$> wins !! k.
Proof.
  intros (b & tb & -> & Hb & Hid) Hlen.
  unfold count_win, is_win_in_slot, ref_team_id, team_at; unfold_bind; cbn.
  rewrite Hb; cbn.
  destruct (0 <? m) eqn:Em; cbn.
  - unfold iadd_item. rewrite position_in_range by lia. cbn.
    destruct (lookup_lt_is_Some_2 wins (Z.to_nat (team_id tb - 1))) as [x Hx];
      [lia|].
    rewrite Hx. eexists; split; [done|]. split; [by rewrite length_insert|].
    intros k. destruct (decide (k = Z.to_nat (team_id tb - 1))) as [->|Hne].
    + rewrite list_lookup_insert_eq by lia. rewrite Hx; cbn.
      rewrite Z2Nat.id, Z.eqb_refl by lia. done.
    + rewrite list_lookup_insert_ne by done.
      destruct (Z.eqb_spec (team_id tb - 1) (Z.of_nat k)); [lia|].
      destruct (wins !! k); cbn; f_equal; lia.
  - exists wins. split; [done|]. split; [done|].
    intros k. destruct (wins !! k); cbn; f_equal; lia.
Qed.

Lemma wins_in_slot_cons p pairs k :
  wins_in_slot st (p :: pairs) k =
  (if is_win_in_slot st k p then 1 else 0) + wins_in_slot st pairs k.
Proof.
  unfold wins_in_slot. rewrite filter_cons.
  destruct (is_win_in_slot st k p) eqn:E.
  - rewrite decide_True by done. cbn [length]. lia.
  - rewrite decide_False by (by intros []). lia.
Qed.

Lemma for_each_count_win pairs : ∀ wins,
  Forall (λ p, in_capacity st p.2) pairs → length wins = 32%nat →
  ∃ wins', for_each (count_win st) wins pairs = Ok wins' ∧
    length wins' = 32%nat ∧
    ∀ k, wins' !! k = (λ x, x + wins_in_slot st pairs k) <$> wins !! k.
Proof.
  induction pairs as [|[m o] pairs IH]; intros wins Hall Hlen.
  - exists wins. split; [done|]. split; [done|].
    intros k. unfold wins_in_slot; cbn. destruct (wins !! k); cbn; f_equal; lia.
  - inversion Hall as [|? ? Ho Hrest]; subst. cbn in Ho.
    destruct (count_win_in_capacity wins m o Ho Hlen) as (w1 & E1 & L1 & S1).
    destruct (IH w1 Hrest L1) as (w2 & E2 & L2 & S2).
    exists w2. split; [cbn [for_each]; rewrite E1; exact E2|]. split; [done|].
    intros k. rewrite S2, S1, wins_in_slot_cons.
    destruct (wins !! k); cbn; f_equal; lia.
Qed.

(** A row of the matrix under the conditions of a well-formed league. *)
Lemma win_row_counts week t :
  Forall (in_capacity st) (slice_to (schedule t) week) →
  ∃ row, win_row st week t = Ok row ∧ length row = 32%nat ∧
    ∀ k, (k < 32)%nat →
      row !! k = Some (wins_in_slot st
                   (zip (slice_to (mov t) week) (slice_to (schedule t) week)) k).
Proof.
  intros Hall. unfold win_row.
  destruct (for_each_count_win
              (zip (slice_to (mov t) week) (slice_to (schedule t) week))
              (replicate 32 0)) as (row & E & L & S).
  - apply Forall_forall. intros [m o] Hin. cbn.
    apply elem_of_zip_r in Hin. by eapply Forall_forall in Hall.
  - by rewrite length_replicate.
  - exists row. split; [done|]. split; [done|].
    intros k Hk. rewrite S, lookup_replicate_2 by done. done.
Qed.
End WinRow.

(** ** The stable sort orders its input and keeps its elements *)

Section SortFacts.
Context {A : Type} (le : A → A → bool).
Hypothesis le_total : ∀ x y, le x y = true ∨ le y x = true.

Lemma insert_sorted_perm x l : insert_sorted le x l ≡ₚ x :: l.
Proof.
  induction l as [|y l IH]; cbn; [done|].
  destruct (le x y); [done|]. rewrite IH. apply Permutation_swap.
Qed.

Lemma sort_with_perm l : sort_with le l ≡ₚ l.
Proof.
  induction l as [|x l IH]; cbn; [done|].
  by rewrite insert_sorted_perm, IH.
Qed.

Lemma insert_sorted_HdRel z x l :
  le z x = true → HdRel (λ a b, le a b = true) z l →
  HdRel (λ a b, le a b = true) z (insert_sorted le x l).
Proof.
  intros Hzx Hz. destruct l as [|y l]; cbn; [by constructor|].
  destruct (le x y); constructor; [done|]. by inversion Hz.
Qed.

Lemma insert_sorted_Sorted x l :
  Sorted (λ a b, le a b = true) l →
  Sorted (λ a b, le a b = true) (insert_sorted le x l).
Proof.
  induction 1 as [|y l Hs IH Hhd]; cbn; [repeat constructor|].
  destruct (le x y) eqn:E.
  - constructor; [by constructor|by constructor].
  - constructor; [done|]. apply insert_sorted_HdRel; [|done].
    destruct (le_total x y); congruence.
Qed.

Lemma sort_with_Sorted l : Sorted (λ a b, le a b = true) (sort_with le l).
Proof.
  induction l as [|x l IH]; cbn; [constructor|].
  by apply insert_sorted_Sorted.
Qed.
End SortFacts.

Lemma Sorted_weaken {A} (R1 R2 : relation A) l :
  (∀ x y, R1 x y → R2 x y) → Sorted R1 l → Sorted R2 l.
Proof.
  intros HR. induction 1 as [|x l Hs IH Hhd]; constructor; [done|].
  destruct Hhd; constructor; auto.
Qed.

Lemma sorted_perm {A} (key : A → Z) l : Py.sorted key l ≡ₚ l.
Proof. apply sort_with_perm. Qed.

Lemma sorted_Sorted {A} (key : A → Z) l :
  Sorted (λ a b, key a ≤ key b) (Py.sorted key l).
Proof.
  eapply Sorted_weaken;
    [|apply (sort_with_Sorted (λ x y, key x <=? key y)); intros; lia].
  intros a b. cbn. lia.
Qed.

Lemma teams_sorted_ascending lg : ascending_ids (store lg) (teams_sorted lg).
Proof. apply sorted_Sorted. Qed.

Lemma teams_sorted_perm lg : teams_sorted lg ≡ₚ teams lg.
Proof. apply sorted_perm. Qed.

(** ** Comprehensions and the rows of the matrix *)

Lemma comprehension_Ok {A B} (f : A → result B) (P : A → B → Prop) xs :
  Forall (λ x, ∃ y, f x = Ok y ∧ P x y) xs →
  ∃ ys, comprehension f xs = Ok ys ∧ Forall2 P xs ys.
Proof.
  induction 1 as [|x xs (y & Hy & HP) _ (ys & Hys & HF)]; cbn.
  - exists []. by split.
  - exists (y :: ys). rewrite Hy; cbn. rewrite Hys; cbn. split; [done|by constructor].
Qed.

Lemma comprehension_inv {A B} (f : A → result B) xs ys :
  comprehension f xs = Ok ys → Forall2 (λ x y, f x = Ok y) xs ys.
Proof.
  revert ys. induction xs as [|x xs IH]; cbn; intros ys H.
  - injection H as <-. constructor.
  - destruct (f x) as [y|] eqn:Ey; cbn in H; [|done].
    destruct (comprehension f xs) as [ys'|] eqn:Eys; cbn in H; [|done].
    injection H as <-. constructor; [done|by apply IH].
Qed.

Lemma slice_to_nonneg {A} (l : list A) (w : Z) :
  0 ≤ w → slice_to l w = take (Z.to_nat w) l.
Proof. intros Hw. unfold slice_to. destruct (0 <=? w) eqn:E; [done|lia]. Qed.

Lemma slice_to_take {A} (l : list A) (w : Z) : ∃ n, slice_to l w = take n l.
Proof. unfold slice_to. destruct (0 <=? w); eauto. Qed.

Lemma win_matrix_rows_slice (self : League) (week : Z) :
  Forall (λ a, ∃ t, store self !! a = Some t ∧
                Forall (in_capacity (store self)) (slice_to (schedule t) week))
         (teams self) →
  ∃ X, win_matrix self week = Ok X ∧
       Forall2 (row_counts (store self) (pairs_through week))
               (teams_sorted self) X.
Proof.
  intros Hplay. apply comprehension_Ok.
  rewrite <- (teams_sorted_perm self) in Hplay.
  eapply Forall_impl; [exact Hplay|]. cbn.
  intros a (t & Ht & Hcap).
  destruct (win_row_counts (store self) week t Hcap) as (row & Hrow & Hlen & Hk).
  exists row. unfold team_at. rewrite Ht. split; [exact Hrow|].
  exists t. by repeat split.
Qed.

Lemma win_matrix_rows (self : League) (week : Z) :
  0 ≤ week → playable self (Z.to_nat week) →
  ∃ X, win_matrix self week = Ok X ∧
       Forall2 (row_counts (store self) (first_weeks (Z.to_nat week)))
               (teams_sorted self) X.
Proof.
  intros Hw Hplay. destruct (win_matrix_rows_slice self week) as (X & HX & Hrows).
  - eapply Forall_impl; [exact Hplay|]. cbn. intros a (t & Ht & Hcap).
    exists t. by rewrite slice_to_nonneg.
  - exists X. split; [done|]. eapply Forall2_impl; [exact Hrows|].
    intros a row (t & Ht & Hlen & Hk). exists t. repeat split; [done..|].
    intros k Hlt. rewrite (Hk k Hlt). unfold pairs_through, first_weeks.
    by rewrite !slice_to_nonneg.
Qed.

(** ** What construction establishes *)

Lemma for_each_invariant {A S} (P : S → Prop) (body : S → A → result S) xs :
  (∀ s x s', P s → body s x = Ok s' → P s') →
  ∀ acc r, P acc → for_each body acc xs = Ok r → P r.
Proof.
  intros Hstep. induction xs as [|x xs IH]; cbn; intros acc r HP H.
  - by injection H as <-.
  - destruct (body acc x) as [s'|] eqn:E; cbn in H; [|done]. eauto.
Qed.

Lemma getitem_nat {A} (l : list A) (k : nat) x :
  getitem l (Z.of_nat k) = Ok x → l !! k = Some x.
Proof.
  unfold getitem, position.
  destruct ((0 <=? Z.of_nat k) && (Z.of_nat k <? Z.of_nat (length l))) eqn:E;
    cbn.
  - rewrite Nat2Z.id. destruct (l !! k); [by intros [= ->]|done].
  - destruct ((- Z.of_nat (length l) <=? Z.of_nat k) && (Z.of_nat k <? 0))
      eqn:E2; cbn; [|done].
    apply andb_true_iff in E2 as [_ ?%Z.ltb_lt]. lia.
Qed.

Lemma Team_init_mov data t : Team_init data = Ok t → mov t = [].
Proof.
  unfold Team_init. unfold_bind.
  destruct (read_display_entries data); [|done].
  destruct (getitem _ 0) as [o|]; [|done].
  unfold _fetch_schedule.
  apply (for_each_invariant (λ s, mov s = [])); [|done].
  intros s x s' Hs. destruct (schedule_entry _ x) as [[sc op]|]; cbn; [|done].
  by intros [= <-].
Qed.

Lemma opponent_score_frame st st' o w :
  same_scores st st' → opponent_score st o w = opponent_score st' o w.
Proof.
  intros H. destruct o as [|b]; cbn; [done|]. unfold team_at. specialize (H b).
  destruct (st !! b), (st' !! b); cbn in *; try done. by injection H as ->.
Qed.

Lemma margins_frame st st' own sched :
  same_scores st st' → ∀ w, margins st own w sched = margins st' own w sched.
Proof.
  intros H. induction sched as [|o sched IH]; intros w; cbn; [done|].
  by rewrite (opponent_score_frame st st' o w H), IH.
Qed.

Lemma margins_spec st own sched : ∀ w ms,
  margins st own w sched = Ok ms →
  length ms = length sched ∧
  ∀ j o, sched !! j = Some o →
    ∃ m b tb s s', ms !! j = Some m ∧ o = TeamObj b ∧ st !! b = Some tb ∧
      own !! ((w + j)%nat) = Some s ∧ scores tb !! ((w + j)%nat) = Some s' ∧
      m = s - s'.
Proof.
  induction sched as [|o sched IH]; intros w ms; cbn.
  - intros [= <-]. split; [done|]. intros j o' Hj. by destruct j.
  - unfold_bind.
    destruct (getitem own (Z.of_nat w)) as [mine|] eqn:Emine; [|done].
    destruct (opponent_score st o w) as [theirs|] eqn:Eth; [|done].
    destruct (margins st own (S w) sched) as [ms'|] eqn:Ems; [|done].
    intros [= <-]. destruct (IH _ _ Ems) as [Hlen Hrest].
    split; [cbn; by rewrite Hlen|].
    intros [|j] o' Hj; cbn in Hj.
    + injection Hj as <-. destruct o as [|b]; cbn in Eth; [done|].
      unfold team_at in Eth. unfold_bind.
      destruct (st !! b) as [tb|] eqn:Eb; [|done].
      exists (mine - theirs), b, tb, mine, theirs. rewrite Nat.add_0_r.
      repeat split; auto using getitem_nat.
    + destruct (Hrest j o' Hj) as (m & b & tb & s & s' & ? & ? & ? & ? & ? & ?).
      exists m, b, tb, s, s'. rewrite <- Nat.add_succ_comm. by repeat split.
Qed.

Lemma mov_pass_spec addrs : ∀ st st',
  NoDup addrs → for_each mov_team st addrs = Ok st' →
  length st' = length st ∧
  ∀ a t', st' !! a = Some t' →
    ∃ t, st !! a = Some t ∧ team_id t' = team_id t ∧ scores t' = scores t ∧
      schedule t' = schedule t ∧
      ((a ∈ addrs ∧ (∃ ms, margins st (scores t) 0 (schedule t) = Ok ms ∧
                           mov t' = mov t ++ ms)) ∨
       ((a ∉ addrs) ∧ mov t' = mov t)).
Proof.
  induction addrs as [|a0 rest IH]; intros st st' Hnd; cbn.
  - intros [= <-]. split; [done|]. intros a t' Ha. exists t'.
    repeat split; auto. right. split; [apply not_elem_of_nil|done].
  - apply NoDup_cons in Hnd as [Hnotin Hnd].
    unfold mov_team at 1, team_at. unfold_bind.
    destruct (st !! a0) as [t0|] eqn:E0; [|done].
    destruct (margins st (scores t0) 0 (schedule t0)) as [ms0|] eqn:Ems0;
      [|done].
    set (t0' := mkTeam _ _ _ _ _). intros Hrest.
    destruct (IH _ _ Hnd Hrest) as [Hlen Hall].
    rewrite length_insert in Hlen. split; [done|].
    assert (a0 < length st)%nat as Hlt by (by eapply lookup_lt_Some).
    assert (same_scores st (<[a0:=t0']> st)) as Hframe.
    { intros b. destruct (decide (a0 = b)) as [<-|Hne].
      - rewrite list_lookup_insert_eq, E0 by done. done.
      - by rewrite list_lookup_insert_ne. }
    intros a t' Ha. destruct (Hall a t' Ha) as (t1 & H1 & Hid & Hsc & Hsch & Hmov).
    destruct (decide (a0 = a)) as [<-|Hne].
    + rewrite list_lookup_insert_eq in H1 by done. injection H1 as <-.
      exists t0. repeat split; [done..|]. left. split; [left|].
      destruct Hmov as [[Hin _]|[_ Hmov]]; [done|]. by exists ms0.
    + rewrite list_lookup_insert_ne in H1 by done.
      exists t1. repeat split; [done..|].
      destruct Hmov as [[Hin (ms & Hms & Hmov)]|[Hnin Hmov]].
      * left. split; [by right|]. exists ms.
        by rewrite (margins_frame _ _ _ _ Hframe).
      * right. split; [|done]. intros [->|?]%elem_of_cons; done.
Qed.

Lemma link_pass_spec addrs st st' :
  for_each (link_team addrs) st addrs = Ok st' →
  Forall (λ t, mov t = []) st →
  length st' = length st ∧ Forall (λ t, mov t = []) st'.
Proof.
  intros Hpass Hmov.
  apply (for_each_invariant
           (λ s, length s = length st ∧ Forall (λ t, mov t = []) s)
           (link_team addrs) addrs) with (acc := st); [|done|done].
  intros s a s' [Hlen Hall]. unfold link_team, team_at. unfold_bind.
  destruct (s !! a) as [t|] eqn:Ea; [|done]. intros [= <-].
  split; [by rewrite length_insert|].
  apply Forall_insert; [done|]. cbn. by eapply Forall_lookup_1 in Hall.
Qed.

(** The steps of [League.__init__] that a successful construction ran. *)
Lemma League_init_inv id yr r self :
  League_init id yr r = Ok self →
  status_code r = 200 ∧
  ∃ created st1,
    Forall (λ t, mov t = []) created ∧
    for_each (link_team (seq 0 (length created))) created
             (seq 0 (length created)) = Ok st1 ∧
    for_each mov_team st1 (seq 0 (length created)) = Ok (store self) ∧
    teams self = sorted (team_id_at (store self)) (seq 0 (length created)).
Proof.
  unfold League_init, _fetch_league, json, check_status. unfold_bind.
  destruct (body r) as [data|]; [|done].
  destruct (status_code r =? 401); [by destruct (error_message data)|].
  destruct (status_code r =? 404); [by destruct (error_message data)|].
  destruct (Z.eqb_spec (status_code r) 200) as [H200|]; cbn; [|done].
  unfold _fetch_teams. unfold_bind. cbn.
  destruct (item _ _) as [settings|]; [|done].
  destruct (comprehension Team_init _) as [created|] eqn:Ecreated; [|done].
  destruct (for_each (link_team _) _ _) as [st1|] eqn:E1; [|done].
  destruct (for_each mov_team _ _) as [st2|] eqn:E2; [|done].
  intros [= <-]. cbn. split; [done|]. exists created, st1.
  repeat split; [|done..].
  apply comprehension_inv in Ecreated.
  clear -Ecreated. induction Ecreated; constructor; eauto using Team_init_mov.
Qed.

Lemma League_init_consistent id yr r self :
  League_init id yr r = Ok self → consistent self.
Proof.
  intros (_ & created & st1 & Hmov0 & Hlink & Hmov & Hteams)%League_init_inv.
  destruct (link_pass_spec _ _ _ Hlink Hmov0) as [Hlen1 Hmov1].
  destruct (mov_pass_spec _ _ _ (NoDup_seq _ _) Hmov) as [Hlen2 Hall].
  split.
  - rewrite Hteams, sorted_perm. by rewrite Hlen2, Hlen1.
  - apply Forall_lookup_2. intros a t2 Ha.
    destruct (Hall a t2 Ha) as (t1 & H1 & _ & Hsc & Hsch & Hm).
    destruct Hm as [[_ (ms & Hms & Hm)]|[Hnin _]].
    2:{ exfalso. apply Hnin, elem_of_seq. apply lookup_lt_Some in H1. lia. }
    rewrite (Forall_lookup_1 _ _ _ _ Hmov1 H1) in Hm. cbn in Hm. subst ms.
    destruct (margins_spec _ _ _ _ _ Hms) as [Hlen Hweeks].
    split; [by rewrite Hsch|].
    intros w o Hw. rewrite Hsch in Hw.
    destruct (Hweeks w o Hw) as (m & b & tb & s & s' & ? & ? & Hb & ? & ? & ?).
    exists m. split; [done|].
    destruct (lookup_lt_is_Some_2 (store self) b) as [tb2 Hb2].
    { rewrite Hlen2. by eapply lookup_lt_Some. }
    destruct (Hall b tb2 Hb2) as (tb' & Hb' & _ & Hsc' & _).
    assert (tb' = tb) as -> by congruence.
    exists b, tb2, s, s'. rewrite Hsc, Hsc'. by repeat split.
Qed.

(** ** A team never meets a win over itself *)

Lemma wins_in_slot_none st pairs k :
  Forall (λ p, is_win_in_slot st k p = false) pairs → wins_in_slot st pairs k = 0.
Proof.
  induction 1 as [|p pairs Hp _ IH]; [done|].
  by rewrite wins_in_slot_cons, Hp, IH.
Qed.

Lemma in_pairs_through week t m o :
  (m, o) ∈ pairs_through week t →
  ∃ w, mov t !! w = Some m ∧ schedule t !! w = Some o.
Proof.
  unfold pairs_through. intros (w & m' & o' & [= -> ->] & Hm & Ho)%elem_of_lookup_zip_with.
  destruct (slice_to_take (mov t) week) as [n1 E1].
  destruct (slice_to_take (schedule t) week) as [n2 E2].
  rewrite E1 in Hm. rewrite E2 in Ho.
  apply lookup_take_Some in Hm as [Hm _]. apply lookup_take_Some in Ho as [Ho _].
  eauto.
Qed.

Lemma same_id_same_team (st : list Team) a b ta tb :
  NoDup (team_id <$> st) → st !! a = Some ta → st !! b = Some tb →
  team_id ta = team_id tb → a = b.
Proof.
  intros Hnd Ha Hb Hid.
  eapply NoDup_lookup; [exact Hnd| |]; rewrite list_lookup_fmap.
  - by rewrite Ha.
  - rewrite Hb; cbn. by rewrite Hid.
Qed.

Lemma consistent_in_capacity (self : League) t :
  consistent self → Forall (λ t, 1 ≤ team_id t ≤ 32) (store self) →
  t ∈ store self → Forall (in_capacity (store self)) (schedule t).
Proof.
  intros [_ Hcons] Hids Ht. eapply Forall_forall in Hcons; [|exact Ht].
  destruct Hcons as [_ Hweeks]. apply Forall_lookup_2. intros w o Hw.
  destruct (Hweeks w o Hw) as (m & _ & b & tb & s & s' & -> & Hb & _).
  exists b, tb. repeat split; [done|..];
    eapply Forall_lookup_1 in Hids; try exact Hb; cbn in Hids; lia.
Qed.

Lemma consistent_playable (self : League) (week : Z) :
  consistent self → Forall (λ t, 1 ≤ team_id t ≤ 32) (store self) →
  Forall (λ a, ∃ t, store self !! a = Some t ∧
                Forall (in_capacity (store self)) (slice_to (schedule t) week))
         (teams self).
Proof.
  intros Hcons Hids. apply Forall_forall. intros a Ha.
  destruct Hcons as [Hperm Hall]. rewrite Hperm in Ha.
  apply elem_of_seq in Ha as [_ Ha]. cbn in Ha.
  destruct (lookup_lt_is_Some_2 (store self) a Ha) as [t Ht].
  exists t. split; [done|].
  destruct (slice_to_take (schedule t) week) as [n ->]. apply Forall_take.
  apply consistent_in_capacity; [by split|done|]. by eapply list_elem_of_lookup_2.
Qed.

Lemma own_slot_no_win (self : League) (week : Z) a t :
  consistent self → NoDup (team_id <$> store self) →
  store self !! a = Some t → 1 ≤ team_id t →
  Forall (λ p, is_win_in_slot (store self) (Z.to_nat (team_id t - 1)) p = false)
         (pairs_through week t).
Proof.
  intros [_ Hcons] Hnd Ha Hid. apply Forall_forall. intros [m o] Hin.
  apply in_pairs_through in Hin as (w & Hm & Ho).
  eapply Forall_lookup_1 in Hcons; [|exact Ha]. destruct Hcons as [_ Hweeks].
  destruct (Hweeks w o Ho) as (m' & Hm' & b & tb & s & s' & -> & Hb & Hs & Hs' & ->).
  assert (m = s - s') as -> by congruence.
  unfold is_win_in_slot, ref_team_id, team_at; cbn. rewrite Hb; cbn.
  destruct (0 <? s - s') eqn:Epos; [|done]. cbn.
  destruct (Z.eqb_spec (team_id tb - 1) (Z.of_nat (Z.to_nat (team_id t - 1))))
    as [Heq|]; [|done].
  apply Z.ltb_lt in Epos.
  assert (a = b) as <-.
  { eapply same_id_same_team; [done..|]. lia. }
  assert (tb = t) as -> by congruence. rewrite Hs in Hs'. injection Hs' as ->. lia.
Qed.

(** ** The dominance score as the sums of the formulas *)

Lemma sum_over_S n f : sum_over (S n) f = f 0%nat + sum_over n (λ j, f (S j)).
Proof.
  unfold sum_over. cbn [seq fmap list_fmap sum_Z foldr].
  by rewrite <- fmap_S_seq, <- list_fmap_compose.
Qed.

Lemma sum_over_ext n : ∀ f g,
  (∀ j, (j < n)%nat → f j = g j) → sum_over n f = sum_over n g.
Proof.
  induction n as [|n IH]; intros f g H; [done|].
  rewrite !sum_over_S, (H 0%nat) by lia. f_equal.
  apply IH. intros j Hj. apply H. lia.
Qed.

Lemma sum_over_zero n : sum_over n (λ _, 0) = 0.
Proof. induction n as [|n IH]; [done|]. by rewrite sum_over_S, IH. Qed.

Lemma sum_Z_lookup l : sum_Z l = sum_over (length l) (λ j, default 0 (l !! j)).
Proof.
  induction l as [|x l IH]; [done|].
  cbn [length]. rewrite sum_over_S.
  change (sum_Z (x :: l)) with (x + sum_Z l). by rewrite IH.
Qed.

Lemma dot_lookup row : ∀ v,
  dot row v =
  sum_over (length row) (λ j, default 0 (row !! j) * default 0 (v !! j)).
Proof.
  induction row as [|x row IH]; intros v; [done|].
  destruct v as [|y v]; cbn [dot length].
  - rewrite (sum_over_ext _ _ (λ _, 0)); [by rewrite sum_over_zero|].
    intros j _. rewrite lookup_nil. cbn. lia.
  - rewrite sum_over_S, IH. done.
Qed.

Lemma two_step_lookup X i row :
  X !! i = Some row →
  two_step_dominance X !! i = Some (sum_Z row + dot row (row_sums X)).
Proof.
  intros H. unfold two_step_dominance, mat_vec, row_sums.
  by rewrite lookup_zip_with, !list_lookup_fmap, H.
Qed.

Lemma row_sums_direct X j : default 0 (row_sums X !! j) = direct_score X j.
Proof.
  unfold row_sums, direct_score, width, cell. rewrite list_lookup_fmap.
  destruct (X !! j) as [r|]; cbn; [apply sum_Z_lookup|done].
Qed.

Lemma two_step_formula X i :
  (i < length X)%nat →
  two_step_dominance X !! i = Some (direct_score X i + indirect_score X i).
Proof.
  intros Hi. destruct (lookup_lt_is_Some_2 X i Hi) as [row Hrow].
  rewrite (two_step_lookup X i row Hrow). f_equal.
  unfold indirect_score, direct_score at 1, width, cell. rewrite Hrow. cbn.
  rewrite sum_Z_lookup, dot_lookup. f_equal.
  apply sum_over_ext. intros j _. by rewrite row_sums_direct.
Qed.

(** ** The counters only grow with the week *)

Lemma for_each_app {A S} (body : S → A → result S) xs ys : ∀ acc,
  for_each body acc (xs ++ ys) =
  Py.bind (for_each body acc xs) (λ acc', for_each body acc' ys).
Proof.
  induction xs as [|x xs IH]; intros acc; cbn; [done|].
  destruct (body acc x); cbn; [apply IH|done].
Qed.

Lemma le_rows_refl (l : list Z) : Forall2 Z.le l l.
Proof. induction l; constructor; [lia|done]. Qed.

Lemma le_rows_trans (l1 l2 l3 : list Z) :
  Forall2 Z.le l1 l2 → Forall2 Z.le l2 l3 → Forall2 Z.le l1 l3.
Proof.
  intros H. revert l3. induction H; intros l3 H3; inversion H3; subst;
    constructor; [lia|auto].
Qed.

Lemma count_win_grows st wins p wins' :
  count_win st wins p = Ok wins' → Forall2 Z.le wins wins'.
Proof.
  destruct p as [m o]. unfold count_win. unfold_bind.
  destruct (ref_team_id st o) as [tid|]; [|done].
  destruct (0 <? m); [|intros [= <-]; apply le_rows_refl].
  unfold iadd_item. unfold_bind.
  destruct (position wins (tid - 1)) as [k|]; [|done].
  destruct (wins !! k) as [x|] eqn:Ek; [|done]. intros [= <-].
  rewrite <- (list_insert_id wins k x Ek) at 1.
  apply Forall2_insert; [apply le_rows_refl|lia].
Qed.

Lemma for_each_count_win_grows st pairs : ∀ wins wins',
  for_each (count_win st) wins pairs = Ok wins' → Forall2 Z.le wins wins'.
Proof.
  induction pairs as [|p pairs IH]; cbn; intros wins wins' H.
  - injection H as <-. apply le_rows_refl.
  - destruct (count_win st wins p) as [w1|] eqn:E1; cbn in H; [|done].
    eapply le_rows_trans; [by eapply count_win_grows|by apply IH].
Qed.

Lemma first_weeks_prefix (n1 n2 : nat) t :
  (n1 ≤ n2)%nat → ∃ more, first_weeks n2 t = first_weeks n1 t ++ more.
Proof.
  intros Hle. unfold first_weeks. rewrite <- !zip_with_take.
  exists (drop n1 (take n2 (zip (mov t) (schedule t)))).
  rewrite <- (take_drop n1 (take n2 _)) at 1. f_equal.
  rewrite take_take. f_equal. lia.
Qed.

Lemma nonneg_above_zeros n (row : list Z) :
  Forall2 Z.le (replicate n 0) row → Forall (λ x, 0 ≤ x) row.
Proof.
  intros H. apply Forall_lookup_2. intros k x Hk.
  destruct (Forall2_lookup_r _ _ _ _ _ H Hk) as (z & Hz & Hle).
  apply lookup_replicate in Hz as [-> _]. done.
Qed.

Lemma win_row_earlier st (w1 w2 : Z) t row2 :
  0 ≤ w1 ≤ w2 → win_row st w2 t = Ok row2 →
  ∃ row1, win_row st w1 t = Ok row1 ∧ Forall2 Z.le row1 row2 ∧
          Forall (λ x, 0 ≤ x) row1.
Proof.
  intros Hw. unfold win_row. rewrite !slice_to_nonneg by lia.
  destruct (first_weeks_prefix (Z.to_nat w1) (Z.to_nat w2) t) as [more Hmore];
    [lia|].
  unfold first_weeks in Hmore. rewrite Hmore, for_each_app.
  destruct (for_each _ _ (zip (take (Z.to_nat w1) _) _)) as [row1|] eqn:E1;
    cbn; [|done].
  intros Hrest. exists row1. split; [done|]. split.
  - by eapply for_each_count_win_grows.
  - eapply nonneg_above_zeros, for_each_count_win_grows, E1.
Qed.

Lemma win_matrix_earlier (self : League) (w1 w2 : Z) X2 :
  0 ≤ w1 ≤ w2 → win_matrix self w2 = Ok X2 →
  ∃ X1, win_matrix self w1 = Ok X1 ∧ Forall2 (Forall2 Z.le) X1 X2 ∧
        Forall (Forall (λ x, 0 ≤ x)) X1.
Proof.
  intros Hw. unfold win_matrix. generalize (teams_sorted self). intros l.
  revert X2. induction l as [|a l IH]; cbn; intros X2 H.
  - injection H as <-. exists []. by repeat split.
  - unfold team_at in *. unfold_bind.
    destruct (store self !! a) as [t|]; [|done].
    destruct (win_row (store self) w2 t) as [row2|] eqn:E2; [|done].
    destruct (comprehension _ l) as [X2'|] eqn:EX2; [|done].
    injection H as <-.
    destruct (win_row_earlier _ _ _ _ _ Hw E2) as (row1 & -> & Hle & Hnn).
    destruct (IH _ eq_refl) as (X1 & HX1 & HleX & HnnX).
    unfold_bind. rewrite HX1. exists (row1 :: X1).
    split; [done|]. split; by constructor.
Qed.

Lemma sum_Z_mono (l k : list Z) : Forall2 Z.le l k → sum_Z l ≤ sum_Z k.
Proof. induction 1; unfold sum_Z in *; cbn; lia. Qed.

Lemma sum_Z_nonneg (l : list Z) : Forall (λ x, 0 ≤ x) l → 0 ≤ sum_Z l.
Proof. induction 1; unfold sum_Z in *; cbn; lia. Qed.

Lemma dot_mono (r1 r2 : list Z) :
  Forall2 Z.le r1 r2 → Forall (λ x, 0 ≤ x) r1 →
  ∀ v1 v2, Forall2 Z.le v1 v2 → Forall (λ x, 0 ≤ x) v1 →
  0 ≤ dot r1 v1 ≤ dot r2 v2.
Proof.
  induction 1 as [|x1 x2 r1 r2 Hx _ IH]; intros Hr v1 v2 Hv Hv1; [done|].
  apply Forall_cons in Hr as [Hx1 Hr].
  destruct Hv as [|y1 y2 v1 v2 Hy Hv]; cbn; [lia|].
  apply Forall_cons in Hv1 as [Hy1 Hv1].
  specialize (IH Hr v1 v2 Hv Hv1). nia.
Qed.

Lemma row_sums_mono X1 X2 :
  Forall2 (Forall2 Z.le) X1 X2 → Forall2 Z.le (row_sums X1) (row_sums X2).
Proof. induction 1; cbn; constructor; auto using sum_Z_mono. Qed.

Lemma row_sums_nonneg X :
  Forall (Forall (λ x, 0 ≤ x)) X → Forall (λ x, 0 ≤ x) (row_sums X).
Proof. induction 1; cbn; constructor; auto using sum_Z_nonneg. Qed.

Lemma two_step_mono X1 X2 i d2 :
  Forall2 (Forall2 Z.le) X1 X2 → Forall (Forall (λ x, 0 ≤ x)) X1 →
  two_step_dominance X2 !! i = Some d2 →
  ∃ d1, two_step_dominance X1 !! i = Some d1 ∧ d1 ≤ d2.
Proof.
  intros Hle Hnn H2.
  assert (is_Some (X2 !! i)) as [row2 Hrow2].
  { apply lookup_lt_is_Some. apply lookup_lt_Some in H2.
    unfold two_step_dominance, row_sums in H2.
    rewrite length_zip_with, length_fmap in H2. lia. }
  destruct (Forall2_lookup_r _ _ _ _ _ Hle Hrow2) as (row1 & Hrow1 & Hrows).
  rewrite (two_step_lookup _ _ _ Hrow2) in H2. injection H2 as <-.
  rewrite (two_step_lookup _ _ _ Hrow1). eexists. split; [done|].
  pose proof (sum_Z_mono _ _ Hrows).
  pose proof (dot_mono _ _ Hrows (Forall_lookup_1 _ _ _ _ Hnn Hrow1)
                _ _ (row_sums_mono _ _ Hle) (row_sums_nonneg _ Hnn)).
  lia.
Qed.

Lemma dominance_at_earlier (self : League) (w1 w2 : Z) i d2 :
  0 ≤ w1 ≤ w2 → dominance_at self w2 i = Ok d2 →
  ∃ d1, dominance_at self w1 i = Ok d1 ∧ d1 ≤ d2.
Proof.
  intros Hw. unfold dominance_at. unfold_bind.
  destruct (win_matrix self w2) as [X2|] eqn:E2; [|done].
  destruct (two_step_dominance X2 !! i) as [d|] eqn:Ed; [|done]. intros [= ->].
  destruct (win_matrix_earlier _ _ _ _ Hw E2) as (X1 & -> & Hle & Hnn).
  destruct (two_step_mono _ _ _ _ Hle Hnn Ed) as (d1 & -> & Hd). eauto.
Qed.

(** ** The order of the ranking *)

Lemma rank_le_total st (e1 e2 : entry) :
  rank_le st e1 e2 = true ∨ rank_le st e2 e1 = true.
Proof.
  unfold rank_le. rewrite <- (Qcompare_antisym (e2.2) (e1.2)).
  destruct (e2.2 ?= e1.2)%Q; cbn; auto.
  destruct (Z.leb_spec (team_id_at st e1.1) (team_id_at st e2.1)); [by left|].
  right. apply Z.leb_le. lia.
Qed.

Lemma rank_le_ranks_before st (e1 e2 : entry) :
  rank_le st e1 e2 = true → ranks_before st e1 e2.
Proof.
  unfold rank_le, ranks_before.
  destruct (e2.2 ?= e1.2)%Q eqn:E; [|left; by apply Qlt_alt|done].
  intros H%Z.leb_le. right. split; [|done]. symmetry. by apply Qeq_alt.
Qed.

#[local] Instance ranks_before_trans st : Transitive (ranks_before st).
Proof.
  intros e1 e2 e3 [H12|[H12 I12]] [H23|[H23 I23]]; unfold ranks_before.
  - left. by eapply Qlt_trans.
  - left. by rewrite <- H23.
  - left. by rewrite H12.
  - right. split; [by rewrite H12|lia].
Qed.

Lemma sort_with_ranked st (es : list entry) :
  StronglySorted (ranks_before st) (sort_with (rank_le st) es).
Proof.
  apply Sorted_StronglySorted; [apply _|].
  eapply Sorted_weaken; [|apply sort_with_Sorted, rank_le_total].
  intros e1 e2. apply rank_le_ranks_before.
Qed.

Lemma StronglySorted_pairs {A} (R : relation A) l i j x y :
  StronglySorted R l → (i < j)%nat → l !! i = Some x → l !! j = Some y → R x y.
Proof.
  intros Hs. revert i j. induction Hs as [|z l Hs IH Hall]; intros i j Hij Hi Hj.
  - by rewrite lookup_nil in Hi.
  - destruct j as [|j]; [lia|]. cbn in Hj. destruct i as [|i]; cbn in Hi.
    + injection Hi as <-. eapply Forall_lookup_1 in Hall; [|exact Hj]. done.
    + apply (IH i j); [lia|done..].
Qed.

(** With valid addresses the ranker returns a ranking of exactly the teams
    it was given, in the order of [ranks_before]. *)
Lemma power_points_ranked blend st dominance ts week :
  length dominance = length ts → Forall (λ a, is_Some (st !! a)) ts →
  ∃ ranking, power_points blend st dominance ts week = Ok ranking ∧
    StronglySorted (ranks_before st) ranking ∧ ranking.*1 ≡ₚ ts.
Proof.
  intros Hlen Hvalid. unfold power_points.
  match goal with
  | |- context [comprehension ?f ?l] =>
      destruct (comprehension_Ok f (λ p (e : entry), e.1 = p.2) l)
        as (entries & -> & Hfst)
  end.
  { apply Forall_forall. intros [d a] Hin. apply elem_of_zip_r in Hin.
    eapply Forall_forall in Hvalid as [t Ht]; [|exact Hin].
    unfold team_at. rewrite Ht. cbn. eauto. }
  cbn. eexists. split; [done|]. split; [apply sort_with_ranked|].
  rewrite sort_with_perm.
  assert (entries.*1 = (zip dominance ts).*2) as ->.
  { clear -Hfst. induction Hfst; cbn; [done|]. by f_equal. }
  rewrite snd_zip by lia. done.
Qed.

Lemma two_step_length X : length (two_step_dominance X) = length X.
Proof.
  unfold two_step_dominance, row_sums, mat_vec.
  rewrite length_zip_with, !length_fmap. lia.
Qed.

Lemma power_rankings_ranked blend (self : League) (week : Z) :
  consistent self → Forall (λ t, 1 ≤ team_id t ≤ 32) (store self) →
  ∃ ranking, (power_rankings blend week self).1 = Ok ranking ∧
    StronglySorted (ranks_before (store self)) ranking ∧
    ranking.*1 ≡ₚ teams self.
Proof.
  intros Hcons Hids. unfold power_rankings. cbn. unfold_bind.
  destruct (win_matrix_rows_slice self week) as (X & -> & Hrows);
    [by apply consistent_playable|].
  destruct (power_points_ranked blend (store self) (two_step_dominance X)
              (teams_sorted self) week) as (ranking & -> & Hs & Hp).
  - rewrite two_step_length. symmetry. by eapply Forall2_length.
  - apply Forall_forall. intros a Ha. rewrite teams_sorted_perm in Ha.
    destruct Hcons as [Hperm _]. rewrite Hperm in Ha.
    apply elem_of_seq in Ha as [_ Ha]. by apply lookup_lt_is_Some_2.
  - exists ranking. repeat split; [done|]. by rewrite Hp, teams_sorted_perm.
Qed.

(** ** Lists of different lengths *)

Lemma zip_up_to_shorter {A B} (l : list A) (k : list B) :
  let n := (length l `min` length k)%nat in
  zip l k = zip (take n l) (take n k).
Proof. cbn. symmetry. apply zip_with_take_both'; lia. Qed.

Lemma win_row_up_to_shorter st (week : Z) t :
  let n := (length (slice_to (mov t) week) `min`
            length (slice_to (schedule t) week))%nat in
  Forall (in_capacity st) (take n (slice_to (schedule t) week)) →
  ∃ row, win_row st week t = Ok row ∧ length row = 32%nat ∧
    ∀ k, (k < 32)%nat →
      row !! k = Some (wins_in_slot st
                         (zip (take n (slice_to (mov t) week))
                              (take n (slice_to (schedule t) week))) k).
Proof.
  intros n Hcap. unfold win_row.
  rewrite (zip_up_to_shorter (slice_to (mov t) week) (slice_to (schedule t) week)).
  fold n.
  destruct (for_each_count_win st
              (zip (take n (slice_to (mov t) week))
                   (take n (slice_to (schedule t) week)))
              (replicate 32 0)) as (row & E & L & S).
  - apply Forall_forall. intros [m o] Hin. cbn.
    apply elem_of_zip_r in Hin. by eapply Forall_forall in Hcap.
  - by rewrite length_replicate.
  - exists row. split; [done|]. split; [done|].
    intros k Hk. rewrite S, lookup_replicate_2 by done. done.
Qed.

(** ** The heap: loads, allocations and writes *)

Ltac run :=
  unfold mbind, Imp.prog_bind, Imp.bind, mret, Imp.prog_ret, Imp.ret,
    Imp.raise in *.

Lemma preserved_refl h : preserved h h.
Proof. by intros a o. Qed.

Lemma preserved_trans h1 h2 h3 :
  preserved h1 h2 → preserved h2 h3 → preserved h1 h3.
Proof. intros H12 H23 a o Ha. eauto. Qed.

Lemma preserved_length h h' : preserved h h' → (length h ≤ length h')%nat.
Proof.
  intros H. destruct (decide (length h = 0%nat)) as [->|Hne]; [lia|].
  destruct (lookup_lt_is_Some_2 h (length h - 1)) as [o Ho]; [lia|].
  apply H, lookup_lt_Some in Ho. lia.
Qed.

Lemma preserved_alloc h o : preserved h (h ++ [o]).
Proof. intros a o' Ha. by apply lookup_app_l_Some. Qed.

Lemma preserved_store h0 h a o :
  preserved h0 h → (length h0 ≤ a)%nat → preserved h0 (<[a := o]> h).
Proof.
  intros H Hle b o' Hb. rewrite list_lookup_insert_ne; [by apply H|].
  apply lookup_lt_Some in Hb. lia.
Qed.

Lemma preserved_but_weaken w h h' : preserved h h' → preserved_but w h h'.
Proof. intros H a o _. apply H. Qed.

Lemma preserved_but_trans w h1 h2 h3 :
  preserved_but w h1 h2 → preserved_but w h2 h3 → preserved_but w h1 h3.
Proof. intros H12 H23 a o Hne Ha. eauto. Qed.

Lemma preserved_but_fresh h0 w h h' :
  preserved h0 h → (length h0 ≤ w)%nat → preserved_but w h h' →
  preserved h0 h'.
Proof.
  intros H0 Hle H a o Ha. apply H; [|by apply H0].
  apply lookup_lt_Some in Ha. lia.
Qed.

Lemma load_eq h a o : h !! a = Some o → Imp.load a h = (Ok o, h).
Proof. intros H. unfold Imp.load. by rewrite H. Qed.

Lemma load_list_eq h a items :
  h !! a = Some (Imp.OList items) → Imp.load_list a h = (Ok items, h).
Proof. intros H. unfold Imp.load_list. run. by rewrite (load_eq _ _ _ H). Qed.

Lemma map_each_as_int (l : list Z) h :
  Imp.map_each Imp.as_int (Imp.VInt <$> l) h = (Ok l, h).
Proof.
  induction l as [|z l IH]; [done|]. cbn. run. cbn. by rewrite IH.
Qed.

Lemma slice_to_fmap {A B} (g : A → B) (l : list A) (w : Z) :
  slice_to (g <$> l) w = g <$> slice_to l w.
Proof.
  unfold slice_to. rewrite length_fmap. by destruct (0 <=? w); rewrite fmap_take.
Qed.

Lemma position_fmap {A B} (g : A → B) (l : list A) (i : Z) :
  position (g <$> l) i = position l i.
Proof. unfold position. by rewrite length_fmap. Qed.

Lemma sort_with_fmap {A B} (g : A → B) (le : A → A → bool)
  (le' : B → B → bool) (l : list A) :
  (∀ x y, le' (g x) (g y) = le x y) →
  sort_with le' (g <$> l) = g <$> sort_with le l.
Proof.
  intros Hle.
  assert (∀ x k, insert_sorted le' (g x) (g <$> k) = g <$> insert_sorted le x k)
    as Hins.
  { intros x k. induction k as [|y k IH]; [done|].
    cbn. rewrite Hle. destruct (le x y); [done|]. cbn. by rewrite <- IH. }
  induction l as [|x l IH]; [done|].
  change (sort_with le' (g <$> x :: l))
    with (insert_sorted le' (g x) (sort_with le' (g <$> l))).
  by rewrite IH, Hins.
Qed.

(** ** The loops of [power_rankings] on a heap that holds the league *)

Lemma zip_heap_pair f (ms : list Z) (os : list team_ref) :
  zip (Imp.VInt <$> ms) (ref_value f <$> os) = heap_pair f <$> zip ms os.
Proof.
  revert os. induction ms as [|m ms IH]; intros [|o os]; [done..|].
  cbn. by rewrite <- IH.
Qed.

Lemma zip_keys {A K B} (key : A → K) (g : A → B) (l : list A) :
  zip (key <$> l) (g <$> l) = (λ a, (key a, g a)) <$> l.
Proof. induction l as [|a l IH]; [done|]. cbn. by rewrite <- IH. Qed.

Lemma sorted_keys {A B} (key : A → Z) (g : A → B) (l : list A) :
  (sort_with (λ x y : Z * B, x.1 <=? y.1) (zip (key <$> l) (g <$> l))).*2 =
  g <$> sorted key l.
Proof.
  rewrite zip_keys.
  rewrite (sort_with_fmap (λ a, (key a, g a)) (λ x y, key x <=? key y)); [|done].
  rewrite <- list_fmap_compose. done.
Qed.

Section Refinement.
Context (f : nat → nat) (h0 : Imp.heap) (self : nat) (lg : League).
Hypothesis Hrep : represents f h0 self lg.

Lemma team_objects h i t :
  preserved h0 h → store lg !! i = Some t →
  ∃ sa ca ma,
    h !! f i = Some (Imp.OTeam (team_id t) (owner t) sa ca ma) ∧
    h !! sa = Some (Imp.OList (Imp.VInt <$> scores t)) ∧
    h !! ca = Some (Imp.OList (ref_value f <$> schedule t)) ∧
    h !! ma = Some (Imp.OList (Imp.VInt <$> mov t)).
Proof.
  intros Hh Hi. destruct Hrep as (_ & _ & Hteams).
  destruct (Hteams i t Hi) as (_ & sa & ca & ma & H1 & H2 & H3 & H4).
  exists sa, ca, ma. repeat split; by apply Hh.
Qed.

Lemma schedule_linked i t :
  store lg !! i = Some t →
  Forall (λ o, ∀ b, o = TeamObj b → is_Some (store lg !! b)) (schedule t).
Proof.
  intros Hi. destruct Hrep as (_ & _ & Hteams). by destruct (Hteams i t Hi).
Qed.

Lemma team_id_of_team h i t :
  preserved h0 h → store lg !! i = Some t →
  Imp.team_id_of (Imp.VRef (f i)) h = (Ok (team_id t), h).
Proof.
  intros Hh Hi. destruct (team_objects h i t Hh Hi) as (sa & ca & ma & H1 & _).
  unfold Imp.team_id_of. run. by rewrite (load_eq _ _ _ H1).
Qed.

Lemma team_id_of_entry h o :
  preserved h0 h → (∀ b, o = TeamObj b → is_Some (store lg !! b)) →
  Imp.team_id_of (ref_value f o) h = (ref_team_id (store lg) o, h).
Proof.
  intros Hh Ho. destruct o as [id|b]; [done|].
  destruct (Ho b eq_refl) as [t Ht]. cbn [ref_value].
  rewrite (team_id_of_team h b t Hh Ht).
  unfold ref_team_id, team_at. by rewrite Ht.
Qed.

Lemma team_ids_of h addrs :
  preserved h0 h → Forall (λ a, is_Some (store lg !! a)) addrs →
  Imp.map_each Imp.team_id_of (team_value f <$> addrs) h =
    (Ok (team_id_at (store lg) <$> addrs), h).
Proof.
  intros Hh. induction 1 as [|a addrs [t Ht] _ IH]; [done|].
  cbn [fmap list_fmap Imp.map_each]. run. unfold team_value at 1.
  rewrite (team_id_of_team h a t Hh Ht).
  change (list_fmap nat Imp.value (team_value f) addrs)
    with (team_value f <$> addrs).
  rewrite IH. unfold team_id_at at 2. by rewrite Ht.
Qed.

(** A pass of the inner loop writes to the list [wins] and to nothing else,
    and counts as [count_win] does. *)
Lemma count_win_step wins h w m o :
  preserved h0 h → h !! w = Some (Imp.OList (Imp.VInt <$> wins)) →
  (∀ b, o = TeamObj b → is_Some (store lg !! b)) →
  Imp.count_win w (heap_pair f (m, o)) h =
    match count_win (store lg) wins (m, o) with
    | Ok wins' => (Ok (), <[w := Imp.OList (Imp.VInt <$> wins')]> h)
    | Raise e => (Raise e, h)
    end.
Proof.
  intros Hh Hw Ho. unfold Imp.count_win, count_win, heap_pair. cbn [fst snd].
  run. unfold_bind. rewrite (team_id_of_entry h o Hh Ho).
  destruct (ref_team_id (store lg) o) as [tid|e]; [|done].
  cbn [Imp.as_int]. run. cbv beta iota. destruct (0 <? m).
  2:{ by rewrite (list_insert_id _ _ _ Hw). }
  unfold Imp.iadd_one, iadd_item. run. unfold Py.bind.
  rewrite (load_list_eq _ _ _ Hw), position_fmap.
  destruct (position wins (tid - 1)) as [p|e]; [|done].
  rewrite list_lookup_fmap. destruct (wins !! p) as [x|]; [|done].
  cbn [fmap option_fmap option_map Imp.as_int]. unfold Imp.store. run.
  cbv beta iota. by rewrite list_fmap_insert.
Qed.

Lemma for_each_cons {A} (body : A → Imp.prog unit) x xs h :
  Imp.for_each body (x :: xs) h =
    match body x h with
    | (Ok _, h') => Imp.for_each body xs h'
    | (Raise e, h') => (Raise e, h')
    end.
Proof. done. Qed.

Lemma count_wins_run pairs : ∀ wins h w,
  preserved h0 h → (length h0 ≤ w)%nat →
  h !! w = Some (Imp.OList (Imp.VInt <$> wins)) →
  Forall (λ p : Z * team_ref, ∀ b, p.2 = TeamObj b → is_Some (store lg !! b))
         pairs →
  ∃ wins',
    Imp.for_each (Imp.count_win w) (heap_pair f <$> pairs) h =
      (match Py.for_each (count_win (store lg)) wins pairs with
       | Ok _ => Ok ()
       | Raise e => Raise e
       end, <[w := Imp.OList (Imp.VInt <$> wins')]> h) ∧
    ∀ row, Py.for_each (count_win (store lg)) wins pairs = Ok row → wins' = row.
Proof.
  induction pairs as [|[m o] pairs IH]; intros wins h w Hh Hle Hw Hpairs.
  - exists wins. cbn. run. rewrite (list_insert_id _ _ _ Hw).
    split; [done|]. by intros row [= ->].
  - apply Forall_cons in Hpairs as [Ho Hpairs]. cbn in Ho.
    rewrite fmap_cons, for_each_cons, (count_win_step wins h w m o Hh Hw Ho).
    cbn [Py.for_each].
    destruct (count_win (store lg) wins (m, o)) as [wins1|e].
    2:{ exists wins. rewrite (list_insert_id _ _ _ Hw). by split. }
    cbn [Py.bind].
    assert (w < length h)%nat as Hlt by (by eapply lookup_lt_Some).
    destruct (IH wins1 (<[w := Imp.OList (Imp.VInt <$> wins1)]> h) w)
      as (wins' & Hrun & Hrow).
    + by apply preserved_store.
    + done.
    + by apply list_lookup_insert_eq.
    + done.
    + exists wins'. rewrite Hrun, list_insert_insert_eq. by split.
Qed.

Lemma mov_slice_run h a t week :
  preserved h0 h → store lg !! a = Some t →
  Imp.mov_slice (team_value f a) week h =
    (Ok (length h), h ++ [Imp.OList (Imp.VInt <$> slice_to (mov t) week)]).
Proof.
  intros Hh Ha.
  destruct (team_objects h a t Hh Ha) as (sa & ca & ma & H1 & _ & _ & H4).
  unfold Imp.mov_slice, team_value. run.
  rewrite (load_eq _ _ _ H1), (load_list_eq _ _ _ H4).
  unfold Imp.alloc. by rewrite slice_to_fmap.
Qed.

Lemma schedule_slice_run h a t week :
  preserved h0 h → store lg !! a = Some t →
  Imp.schedule_slice (team_value f a) week h =
    (Ok (length h),
     h ++ [Imp.OList (ref_value f <$> slice_to (schedule t) week)]).
Proof.
  intros Hh Ha.
  destruct (team_objects h a t Hh Ha) as (sa & ca & ma & H1 & _ & H3 & _).
  unfold Imp.schedule_slice, team_value. run.
  rewrite (load_eq _ _ _ H1), (load_list_eq _ _ _ H3).
  unfold Imp.alloc. by rewrite slice_to_fmap.
Qed.

Lemma Forall_zip_snd {A B} (P : B → Prop) (l : list A) (k : list B) :
  Forall P k → Forall (λ p : A * B, P p.2) (zip l k).
Proof.
  intros Hk. revert l. induction Hk as [|y k Hy _ IH]; intros [|x l]; cbn;
    try by apply Forall_nil.
  apply Forall_cons. split; [done|apply IH].
Qed.

Lemma Forall_slice_to {A} (P : A → Prop) (l : list A) (w : Z) :
  Forall P l → Forall P (slice_to l w).
Proof. intros Hl. unfold slice_to. destruct (0 <=? w); by apply Forall_take. Qed.

(** A pass of the outer loop: three lists are allocated, the new list of
    wins is written to, and its reference is appended to the list at [wm].
    Every other object stays as it is. *)
Lemma add_row_run h wm refs a t week :
  preserved h0 h → (length h0 ≤ wm)%nat →
  h !! wm = Some (Imp.OList refs) → store lg !! a = Some t →
  ∃ h',
    Imp.add_row wm week (team_value f a) h =
      (match win_row (store lg) week t with
       | Ok _ => Ok ()
       | Raise e => Raise e
       end, h') ∧
    preserved_but wm h h' ∧
    ∀ row, win_row (store lg) week t = Ok row →
      ∃ w, h' !! wm = Some (Imp.OList (refs ++ [Imp.VRef w])) ∧ w ≠ wm ∧
           h' !! w = Some (Imp.OList (Imp.VInt <$> row)).
Proof.
  intros Hh Hle Hwm Ha.
  assert (wm < length h)%nat as Hlt by (by eapply lookup_lt_Some).
  unfold Imp.add_row. run. unfold Imp.alloc at 1.
  set (h1 := h ++ [Imp.OList (replicate 32 (Imp.VInt 0))]).
  assert (preserved h0 h1) as Hh1
    by (eapply preserved_trans; [exact Hh|apply preserved_alloc]).
  rewrite (mov_slice_run h1 a t week Hh1 Ha).
  set (h2 := h1 ++ [Imp.OList (Imp.VInt <$> slice_to (mov t) week)]).
  assert (preserved h0 h2) as Hh2
    by (eapply preserved_trans; [exact Hh1|apply preserved_alloc]).
  rewrite (schedule_slice_run h2 a t week Hh2 Ha).
  set (h3 := h2 ++ [Imp.OList (ref_value f <$> slice_to (schedule t) week)]).
  assert (preserved h0 h3) as Hh3
    by (eapply preserved_trans; [exact Hh2|apply preserved_alloc]).
  assert (preserved h h3) as Hhh3.
  { intros b o Hb. by do 3 apply lookup_app_l_Some. }
  rewrite (load_list_eq h3 (length h1) _
             (lookup_app_l_Some _ _ _ _ (list_lookup_middle _ _ _ _ eq_refl))).
  rewrite (load_list_eq h3 (length h2) _ (list_lookup_middle _ _ _ _ eq_refl)).
  rewrite zip_heap_pair.
  destruct (count_wins_run
              (zip (slice_to (mov t) week) (slice_to (schedule t) week))
              (replicate 32 0) h3 (length h)) as (wins' & Hrun & Hrow).
  - done.
  - apply preserved_length in Hh. lia.
  - rewrite fmap_replicate. do 2 apply lookup_app_l_Some.
    by apply list_lookup_middle.
  - apply (Forall_zip_snd
             (λ o, ∀ b, o = TeamObj b → is_Some (store lg !! b))),
      Forall_slice_to, (schedule_linked a t Ha).
  - rewrite Hrun. fold (win_row (store lg) week t) in *.
    set (h4 := <[length h := Imp.OList (Imp.VInt <$> wins')]> h3).
    assert (preserved_but wm h h4) as Hh4.
    { intros b o _ Hb. unfold h4. rewrite list_lookup_insert_ne.
      - by apply Hhh3.
      - apply lookup_lt_Some in Hb. lia. }
    assert (length h < length h3)%nat as Hlen.
    { unfold h3, h2, h1. rewrite !length_app. cbn. lia. }
    destruct (win_row (store lg) week t) as [row|e].
    2:{ exists h4. by split. }
    assert (h4 !! wm = Some (Imp.OList refs)) as Hwm4.
    { unfold h4. rewrite list_lookup_insert_ne by lia. by apply Hhh3. }
    unfold Imp.append. run. rewrite (load_list_eq _ _ _ Hwm4). unfold Imp.store.
    eexists. split; [reflexivity|]. split.
    + intros b o Hne Hb. rewrite list_lookup_insert_ne by done. by apply Hh4.
    + intros row' [= <-]. exists (length h). split; [|split].
      * apply list_lookup_insert_eq. unfold h4. rewrite length_insert. lia.
      * lia.
      * rewrite list_lookup_insert_ne by lia. unfold h4.
        rewrite (Hrow row eq_refl). by apply list_lookup_insert_eq.
Qed.

Lemma holds_rows_preserved wm h h' refs X :
  preserved_but wm h h' → holds_rows h wm refs X → holds_rows h' wm refs X.
Proof.
  intros Hh Hrows. unfold holds_rows in *.
  eapply Forall2_impl; [exact Hrows|]. cbv beta.
  intros v row (w & -> & Hne & Hw). exists w. repeat split; [done|].
  by apply Hh.
Qed.

(** The outer loop fills the list at [wm] with the rows of [win_matrix]. *)
Lemma rows_run week addrs : ∀ h wm refs X0,
  preserved h0 h → (length h0 ≤ wm)%nat →
  h !! wm = Some (Imp.OList refs) → holds_rows h wm refs X0 →
  Forall (λ a, is_Some (store lg !! a)) addrs →
  ∃ h',
    Imp.for_each (Imp.add_row wm week) (team_value f <$> addrs) h =
      (match comprehension
               (λ a, t ← team_at (store lg) a; win_row (store lg) week t)
               addrs with
       | Ok _ => Ok ()
       | Raise e => Raise e
       end, h') ∧
    preserved_but wm h h' ∧
    ∀ X, comprehension
           (λ a, t ← team_at (store lg) a; win_row (store lg) week t)
           addrs = Ok X →
      ∃ refs', h' !! wm = Some (Imp.OList refs') ∧
               holds_rows h' wm refs' (X0 ++ X).
Proof.
  induction addrs as [|a addrs IH]; intros h wm refs X0 Hh Hle Hwm Hrows Hval.
  - exists h. split; [done|]. split; [by intros b o|].
    intros X [= <-]. exists refs. by rewrite app_nil_r.
  - apply Forall_cons in Hval as [[t Ht] Hval].
    rewrite fmap_cons, for_each_cons.
    destruct (add_row_run h wm refs a t week Hh Hle Hwm Ht)
      as (h1 & -> & Hh1 & Hrow).
    cbn [comprehension]. unfold_bind. unfold team_at at 1 3. rewrite Ht.
    destruct (win_row (store lg) week t) as [row|e].
    2:{ exists h1. by split. }
    destruct (Hrow row eq_refl) as (w & Hwm1 & Hne & Hw).
    destruct (IH h1 wm (refs ++ [Imp.VRef w]) (X0 ++ [row]))
      as (h' & Hrun & Hh' & HX).
    + by eapply preserved_but_fresh.
    + done.
    + done.
    + apply Forall2_app; [by eapply holds_rows_preserved|].
      apply Forall2_cons; split; [|by apply Forall2_nil].
      by exists w.
    + done.
    + exists h'. rewrite Hrun. split; [|split].
      * by destruct (comprehension _ addrs).
      * by eapply preserved_but_trans.
      * intros X HX'. destruct (comprehension _ addrs) as [X'|]; [|done].
        injection HX' as <-. destruct (HX X' eq_refl) as (refs' & ? & ?).
        exists refs'. by rewrite <- app_assoc in *.
Qed.

Lemma read_rows_run h wm refs X :
  holds_rows h wm refs X →
  Imp.map_each (λ row,
                  match row with
                  | Imp.VRef a =>
                      items ← Imp.load_list a; Imp.map_each Imp.as_int items
                  | Imp.VInt _ => Imp.raise TypeError
                  end) refs h = (Ok X, h).
Proof.
  induction 1 as [|v row refs X (w & -> & _ & Hw) _ IH]; [done|].
  cbn [Imp.map_each]. run. rewrite (load_list_eq _ _ _ Hw), map_each_as_int.
  by rewrite IH.
Qed.

Lemma read_matrix_run h wm refs X :
  h !! wm = Some (Imp.OList refs) → holds_rows h wm refs X →
  Imp.read_matrix wm h = (Ok X, h).
Proof.
  intros Hwm Hrows. unfold Imp.read_matrix. run.
  rewrite (load_list_eq _ _ _ Hwm). by apply (read_rows_run h wm).
Qed.

Lemma rank_entries_run blend week h addrs :
  preserved h0 h → Forall (λ a, is_Some (store lg !! a)) addrs →
  ∀ ds, ∃ es,
    comprehension
      (λ '(d, a), t ← team_at (store lg) a; Ok (a, final_score blend d t week))
      (zip ds addrs) = Ok es ∧
    Imp.map_each (Imp.rank_entry blend week) (zip ds (team_value f <$> addrs)) h
      = (Ok (keyed f (store lg) <$> es), h).
Proof.
  intros Hh. induction 1 as [|a addrs [t Ht] _ IH]; intros ds.
  - exists []. by destruct ds.
  - destruct ds as [|d ds]; [by exists []|].
    destruct (IH ds) as (es & Hes & Hrun).
    destruct (team_objects h a t Hh Ht) as (sa & ca & ma & H1 & H2 & _).
    exists ((a, final_score blend d t week) :: es).
    rewrite fmap_cons. cbn [zip zip_with comprehension Imp.map_each].
    unfold_bind. run. unfold team_at at 1. rewrite Ht, Hes. split; [done|].
    unfold Imp.rank_entry at 1, team_value at 1. run.
    rewrite (load_eq _ _ _ H1), (load_list_eq _ _ _ H2), map_each_as_int.
    change (zip_with pair ds (team_value f <$> addrs))
      with (zip ds (team_value f <$> addrs)).
    rewrite Hrun, fmap_cons.
    assert (keyed f (store lg) (a, final_score blend d t week) =
              (team_id t, (f a, final_score blend d t week))) as ->; [|done].
    unfold keyed, team_id_at. cbn [fst snd]. by rewrite Ht.
Qed.

Lemma ranking_placed (es : list entry) :
  (sort_with Imp.ranks_le (keyed f (store lg) <$> es)).*2 =
  (λ e : entry, (f e.1, e.2)) <$> sort_with (rank_le (store lg)) es.
Proof.
  rewrite (sort_with_fmap (keyed f (store lg)) (rank_le (store lg))); [|done].
  by rewrite <- list_fmap_compose.
Qed.

Lemma teams_sorted_valid :
  Forall (λ a, is_Some (store lg !! a)) (teams_sorted lg).
Proof.
  destruct Hrep as (_ & Hval & _). by rewrite teams_sorted_perm.
Qed.

(** The method on the heap returns what [power_rankings] returns, with every
    team as its address, and leaves every object of the heap as it was. *)
Lemma power_rankings_refines blend week :
  ∃ h1,
    Imp.power_rankings blend self week h0 =
      (placed f (power_rankings blend week lg).1, h1) ∧
    preserved h0 h1.
Proof.
  destruct Hrep as ((ta & Hself & Hta) & Hval & _).
  unfold Imp.power_rankings. run. unfold Imp.alloc at 1.
  set (wm := length h0). set (ha := h0 ++ [Imp.OList []]).
  assert (preserved h0 ha) as Hha by apply preserved_alloc.
  unfold Imp.teams_of. run. rewrite (load_eq _ _ _ (Hha _ _ Hself)).
  unfold Imp.sorted_by_team_id. run.
  rewrite (load_list_eq _ _ _ (Hha _ _ Hta)), (team_ids_of ha _ Hha Hval).
  rewrite sorted_keys. fold (teams_sorted lg). unfold Imp.alloc at 1.
  set (hb := ha ++ [Imp.OList (team_value f <$> teams_sorted lg)]).
  assert (preserved h0 hb) as Hhb
    by (eapply preserved_trans; [exact Hha|apply preserved_alloc]).
  assert (hb !! length ha = Some (Imp.OList (team_value f <$> teams_sorted lg)))
    as Hts by (by apply list_lookup_middle).
  rewrite (load_list_eq _ _ _ Hts).
  destruct (rows_run week (teams_sorted lg) hb wm [] [])
    as (hc & Hrun & Hhc & HX).
  - done.
  - done.
  - apply lookup_app_l_Some. by apply list_lookup_middle.
  - apply Forall2_nil_2.
  - apply teams_sorted_valid.
  - rewrite Hrun. unfold power_rankings, win_matrix. cbn [fst]. unfold_bind.
    assert (preserved h0 hc) as Hh0c by (by eapply preserved_but_fresh).
    destruct (comprehension _ (teams_sorted lg)) as [X|e].
    2:{ by exists hc. }
    destruct (HX X eq_refl) as (refs & Hwm & Hrows). cbn [app] in Hrows.
    unfold Imp.two_step_dominance. run.
    rewrite (read_matrix_run _ _ _ _ Hwm Hrows). unfold Imp.alloc.
    set (hd := hc ++ [Imp.OList (Imp.VInt <$> two_step_dominance X)]).
    assert (preserved h0 hd) as Hhd
      by (eapply preserved_trans; [exact Hh0c|apply preserved_alloc]).
    exists hd. split; [|done].
    unfold Imp.power_points. run.
    rewrite (load_list_eq hd (length hc) _ (list_lookup_middle _ _ _ _ eq_refl)).
    rewrite map_each_as_int.
    assert (hd !! length ha =
              Some (Imp.OList (team_value f <$> teams_sorted lg))) as Hts'.
    { apply lookup_app_l_Some, Hhc; [|done]. unfold wm, ha.
      rewrite length_app. cbn. lia. }
    rewrite (load_list_eq _ _ _ Hts').
    destruct (rank_entries_run blend week hd (teams_sorted lg) Hhd
                teams_sorted_valid (two_step_dominance X)) as (es & Hes & Hrank).
    rewrite Hrank. unfold power_points. unfold_bind. rewrite Hes.
    cbn [placed]. by rewrite ranking_placed.
Qed.

End Refinement.

Lemma represents_preserved f h h' self lg :
  preserved h h' → represents f h self lg → represents f h' self lg.
Proof.
  intros Hh ((ta & Hself & Hta) & Hval & Hteams). split; [|split].
  - exists ta. split; by apply Hh.
  - done.
  - intros i t Hi. destruct (Hteams i t Hi) as (Hlinked & sa & ca & ma & H).
    split; [done|]. exists sa, ca, ma.
    destruct H as (? & ? & ? & ?). repeat split; by apply Hh.
Qed.

(** ** The heap of a constructed league *)

Lemma team_heap_lookup st : ∀ i0 i t k,
  st !! i = Some t → (k < 4)%nat →
  team_heap i0 st !! (4 * i + k)%nat = team_cells (i0 + i) t !! k.
Proof.
  induction st as [|t0 st IH]; intros i0 i t k Hi Hk; [done|].
  destruct i as [|i].
  - injection Hi as ->. cbn [team_heap]. rewrite Nat.add_0_r.
    by rewrite lookup_app_l.
  - cbn [team_heap]. rewrite lookup_app_r by (cbn; lia).
    replace (4 * S i + k - length (team_cells i0 t0))%nat with (4 * i + k)%nat
      by (cbn; lia).
    rewrite (IH (S i0) i t k Hi Hk). f_equal. f_equal. lia.
Qed.

Lemma layout_lookup lg i t k :
  store lg !! i = Some t → (k < 4)%nat →
  layout lg !! (place i + k)%nat = team_cells i t !! k.
Proof.
  intros Hi Hk. change i with (0 + i)%nat at 2.
  rewrite <- (team_heap_lookup (store lg) 0 i t k Hi Hk).
  unfold layout, place.
  by replace (2 + 4 * i + k)%nat with (S (S (4 * i + k))) by lia.
Qed.

Lemma layout_represents lg :
  consistent lg → represents place (layout lg) 0 lg.
Proof.
  intros [Hperm Hcons]. split; [|split].
  - by exists 1%nat.
  - rewrite Hperm. apply Forall_forall. intros a Ha%elem_of_seq.
    apply lookup_lt_is_Some_2. lia.
  - intros i t Hi. split.
    + apply Forall_lookup_2. intros w o Ho b ->.
      destruct (Forall_lookup_1 _ _ _ _ Hcons Hi) as [_ Hweeks].
      destruct (Hweeks w _ Ho) as (m & _ & b' & tb & s & s' & [= <-] & Hb & _).
      by exists tb.
    + exists (place i + 1)%nat, (place i + 2)%nat, (place i + 3)%nat.
      pose proof (layout_lookup lg i t 0 Hi ltac:(lia)) as H0.
      rewrite Nat.add_0_r in H0.
      split; [exact H0|].
      split; [by rewrite (layout_lookup lg i t 1 Hi) by lia|].
      split; [by rewrite (layout_lookup lg i t 2 Hi) by lia|].
      by rewrite (layout_lookup lg i t 3 Hi) by lia.
Qed.

(** Every league that [League.__init__] builds is held by a heap. *)
Lemma constructed_league_on_heap id yr r lg :
  League_init id yr r = Ok lg → represents place (layout lg) 0 lg.
Proof. intros Hinit. by eapply layout_represents, League_init_consistent. Qed.

(** ** The demonstration league *)

Example demo_league_built : League_init 7 2017 Demo.response = Ok Demo.league.
Proof. vm_compute. reflexivity. Qed.

Example demo_matrix :
  win_matrix Demo.league 3 =
  Ok [ [0; 1; 1] ++ replicate 29 0; [0; 0; 1] ++ replicate 29 0; replicate 32 0 ].
Proof. vm_compute. reflexivity. Qed.

Example demo_dominance : dominance_at Demo.league 3 0 = Ok 3.
Proof. vm_compute. reflexivity. Qed.

Lemma demo_playable n : playable Demo.league n.
Proof.
  assert (∀ b, (b < 3)%nat → in_capacity (store Demo.league) (TeamObj b)) as Hcap.
  { intros b Hb. destruct b as [|[|[|b]]]; [..|lia];
      (eexists _, _; split; [reflexivity|]; split; [reflexivity|]; cbn; lia). }
  unfold playable. cbn. apply Forall_forall. intros a Ha.
  repeat (apply elem_of_cons in Ha as [->|Ha]); [..|by apply elem_of_nil in Ha];
    (eexists; split; [reflexivity|]); apply Forall_take; cbn;
    repeat constructor; apply Hcap; lia.
Qed.

Lemma demo_ids_distinct : NoDup (team_id <$> store Demo.league).
Proof. cbn. apply (bool_decide_unpack _). by vm_compute. Qed.

Lemma demo_ids_in_capacity : Forall (λ t, 1 ≤ team_id t ≤ 32) (store Demo.league).
Proof. cbn. repeat constructor; cbn; lia. Qed.

(** * The claims *)

Lemma is_win_in_slot_iff st k m b tb :
  st !! b = Some tb →
  is_win_in_slot st k (m, TeamObj b) = true ↔ 0 < m ∧ team_id tb - 1 = Z.of_nat k.
Proof.
  intros Hb. unfold is_win_in_slot, ref_team_id, team_at; cbn. rewrite Hb; cbn.
  rewrite andb_true_iff, Z.ltb_lt, Z.eqb_eq. done.
Qed.

(** C2: for every week [W >= 0] of a league whose opponents are linked teams
    with ids 1..32, [power_rankings] builds one row per team, the teams taken
    in ascending [team_id] order; each row has 32 slots whatever the number
    of teams, and slot [k] holds the number of pairs [(mov, opponent)] among
    the team's first [W] with [mov > 0] and [opponent.team_id - 1 = k].  A
    margin that is zero or negative is counted in no slot. *)
Theorem win_matrix_counts_wins (self : League) (week : Z) :
  0 ≤ week → playable self (Z.to_nat week) →
  ascending_ids (store self) (teams_sorted self) ∧
  teams_sorted self ≡ₚ teams self ∧
  (∃ X, win_matrix self week = Ok X ∧
        Forall2 (row_counts (store self) (first_weeks (Z.to_nat week)))
                (teams_sorted self) X) ∧
  (∀ k m b tb, store self !! b = Some tb →
     is_win_in_slot (store self) k (m, TeamObj b) = true ↔
     0 < m ∧ team_id tb - 1 = Z.of_nat k).
Proof.
  intros Hw Hplay. split; [apply teams_sorted_ascending|].
  split; [apply teams_sorted_perm|]. split; [by apply win_matrix_rows|].
  intros k m b tb. apply is_win_in_slot_iff.
Qed.

Lemma win_matrix_counts_wins_witness :
  0 ≤ 3 ∧ playable Demo.league (Z.to_nat 3) ∧
  ∃ X, win_matrix Demo.league 3 = Ok X ∧
       Forall2 (row_counts (store Demo.league) (first_weeks (Z.to_nat 3)))
               (teams_sorted Demo.league) X.
Proof.
  split; [lia|]. split; [apply demo_playable|].
  apply (win_matrix_counts_wins Demo.league 3); [lia|apply demo_playable].
Defined.

(** C5: in a league that [League.__init__] built from teams with distinct
    ids in 1..32, every week [W] (of any sign) yields a win matrix in which
    the slot of a team's own id is zero in that team's row, bye weeks
    included: against itself a team has margin zero. *)
Theorem own_slot_stays_zero id yr r (self : League) (week : Z) :
  League_init id yr r = Ok self →
  NoDup (team_id <$> store self) →
  Forall (λ t, 1 ≤ team_id t ≤ 32) (store self) →
  ∃ X, win_matrix self week = Ok X ∧ length X = length (teams self) ∧
    ∀ i a t row,
      teams_sorted self !! i = Some a → store self !! a = Some t →
      X !! i = Some row → row !! Z.to_nat (team_id t - 1) = Some 0.
Proof.
  intros Hcons%League_init_consistent Hnd Hids.
  destruct (win_matrix_rows_slice self week) as (X & HX & Hrows);
    [by apply consistent_playable|].
  exists X. split; [done|]. split.
  { by rewrite <- (Forall2_length _ _ _ Hrows), teams_sorted_perm. }
  intros i a t row Hi Ha Hrow.
  destruct (Forall2_lookup_lr _ _ _ _ _ _ Hrows Hi Hrow) as (t' & Ha' & _ & Hk).
  assert (t' = t) as -> by congruence.
  assert (1 ≤ team_id t ≤ 32) as Hid by (by eapply Forall_lookup_1 in Hids).
  rewrite Hk by lia. f_equal. apply wins_in_slot_none.
  apply own_slot_no_win with (a := a); [done..|lia].
Qed.

Lemma own_slot_stays_zero_witness :
  League_init 7 2017 Demo.response = Ok Demo.league ∧
  ∃ X, win_matrix Demo.league 3 = Ok X ∧ length X = length (teams Demo.league) ∧
    ∀ i a t row,
      teams_sorted Demo.league !! i = Some a → store Demo.league !! a = Some t →
      X !! i = Some row → row !! Z.to_nat (team_id t - 1) = Some 0.
Proof.
  split; [vm_compute; reflexivity|].
  apply (own_slot_stays_zero 7 2017 Demo.response Demo.league 3).
  - vm_compute. reflexivity.
  - apply demo_ids_distinct.
  - apply demo_ids_in_capacity.
Defined.

(** C1: for every win matrix that [power_rankings] builds for a week, the
    dominance score of the [i]-th team is its direct score plus its indirect
    score, the direct score being the sum of row [i] and the indirect score
    the sum over [j] of [matrix[i][j]] times the direct score of [j]. *)
Theorem dominance_is_direct_plus_indirect (self : League) (week : Z) X i :
  win_matrix self week = Ok X → (i < length X)%nat →
  two_step_dominance X !! i = Some (direct_score X i + indirect_score X i) ∧
  direct_score X i = sum_over (width X i) (λ j, cell X i j) ∧
  indirect_score X i = sum_over (width X i) (λ j, cell X i j * direct_score X j).
Proof. intros _ Hi. split; [by apply two_step_formula|done]. Qed.

Lemma dominance_is_direct_plus_indirect_witness :
  ∃ X, win_matrix Demo.league 3 = Ok X ∧ (0 < length X)%nat ∧
    two_step_dominance X !! 0%nat =
      Some (direct_score X 0 + indirect_score X 0) ∧
    direct_score X 0 = 2 ∧ indirect_score X 0 = 1.
Proof.
  eexists. split; [vm_compute; reflexivity|]. split; [cbn; lia|].
  split; [|by vm_compute].
  eapply (dominance_is_direct_plus_indirect Demo.league 3);
    [vm_compute; reflexivity|cbn; lia].
Defined.

(** C4: for the team at position [i] of the sorted teams and weeks
    [0 <= W1 < W2], if the team's margins in the weeks after [W1] up to [W2]
    are all strictly positive, its dominance score at [W2] is computed only
    if the one at [W1] is, and is at least as large. *)
Theorem dominance_grows_with_wins (self : League) (w1 w2 : Z) i a t d2 :
  0 ≤ w1 < w2 →
  teams_sorted self !! i = Some a → store self !! a = Some t →
  Forall (λ m, 0 < m) (drop (Z.to_nat w1) (take (Z.to_nat w2) (mov t))) →
  dominance_at self w2 i = Ok d2 →
  ∃ d1, dominance_at self w1 i = Ok d1 ∧ d1 ≤ d2.
Proof.
  intros Hw _ _ _ H2. apply (dominance_at_earlier self w1 w2 i d2); [lia|done].
Qed.

Lemma dominance_grows_with_wins_witness :
  dominance_at Demo.league 2 0 = Ok 2 ∧ dominance_at Demo.league 3 0 = Ok 3 ∧
  ∃ d1, dominance_at Demo.league 2 0 = Ok d1 ∧ d1 ≤ 3.
Proof.
  split; [by vm_compute|]. split; [by vm_compute|].
  apply (dominance_grows_with_wins Demo.league 2 3 0%nat 1%nat
           (mkTeam 1 "Al One" [100; 70; 110] [TeamObj 0; TeamObj 1; TeamObj 2]
                   [10; 0; 50]) 3).
  - lia.
  - by vm_compute.
  - reflexivity.
  - cbn. repeat constructor.
  - by vm_compute.
Defined.

(** C3: for a league that [League.__init__] built from teams with ids in
    1..32 and for every week [W], [power_rankings(W)] returns a ranking of
    exactly the league's teams in which, of any two entries, the earlier has
    a score at least as high as the later, and ascending [team_id] decides
    between equal scores. *)
Theorem power_rankings_sorted blend id yr r (self : League) (week : Z) :
  League_init id yr r = Ok self →
  Forall (λ t, 1 ≤ team_id t ≤ 32) (store self) →
  ∃ ranking, (power_rankings blend week self).1 = Ok ranking ∧
    ranking.*1 ≡ₚ teams self ∧
    ∀ i j (e1 e2 : entry), (i < j)%nat →
      ranking !! i = Some e1 → ranking !! j = Some e2 →
      (e2.2 <= e1.2)%Q ∧
      ((e1.2 == e2.2)%Q →
       team_id_at (store self) e1.1 ≤ team_id_at (store self) e2.1).
Proof.
  intros Hcons%League_init_consistent Hids.
  destruct (power_rankings_ranked blend self week Hcons Hids)
    as (ranking & Hrun & Hsorted & Hperm).
  exists ranking. split; [done|]. split; [done|].
  intros i j e1 e2 Hij Hi Hj.
  destruct (StronglySorted_pairs _ _ _ _ _ _ Hsorted Hij Hi Hj)
    as [Hlt|[Heq Hid]].
  - split; [by apply Qlt_le_weak|].
    intros Heq. rewrite Heq in Hlt. by apply Qlt_irrefl in Hlt.
  - split; [|done]. rewrite Heq. apply Qle_refl.
Qed.

Lemma power_rankings_sorted_witness :
  League_init 7 2017 Demo.response = Ok Demo.league ∧
  (power_rankings Demo.blend 3 Demo.league).1 =
    Ok [(1%nat, 90280 # 300); (0%nat, 30260 # 300); (2%nat, 225 # 300)] ∧
  ∃ ranking, (power_rankings Demo.blend 3 Demo.league).1 = Ok ranking ∧
    ranking.*1 ≡ₚ teams Demo.league ∧
    ∀ i j (e1 e2 : entry), (i < j)%nat →
      ranking !! i = Some e1 → ranking !! j = Some e2 →
      (e2.2 <= e1.2)%Q ∧
      ((e1.2 == e2.2)%Q →
       team_id_at (store Demo.league) e1.1 ≤ team_id_at (store Demo.league) e2.1).
Proof.
  split; [vm_compute; reflexivity|]. split; [vm_compute; reflexivity|].
  apply (power_rankings_sorted Demo.blend 7 2017 Demo.response Demo.league 3).
  - vm_compute. reflexivity.
  - apply demo_ids_in_capacity.
Defined.

(** C6: on a heap that holds the league (the heap of a league that
    [League.__init__] built is one), a call of [power_rankings(W)] leaves
    every object that was there as it was: the league object, its list of
    teams, every team, and every team's lists [mov], [schedule] and
    [scores]; so the heap still holds the same league.  What the call writes
    to, [wins] by [wins[opp] += 1] and [win_matrix] by [append], are lists
    that it allocated itself.  A second call, on the heap that the first one
    left, returns the same output: the ranking that [power_rankings]
    computes from the data of the league, or the same exception.  The
    helpers of [utils] are modelled from the spec, as reading what they are
    given. *)
Theorem power_rankings_leaves_the_league (f : nat → nat) (h : Imp.heap)
  (self : nat) (lg : League) (blend : Z → Q → Q) (week : Z) :
  represents f h self lg →
  ∃ out h1,
    Imp.power_rankings blend self week h = (out, h1) ∧
    (∀ a o, h !! a = Some o → h1 !! a = Some o) ∧
    represents f h1 self lg ∧
    (Imp.power_rankings blend self week h1).1 = out ∧
    out = placed f (power_rankings blend week lg).1.
Proof.
  intros Hrep.
  destruct (power_rankings_refines f h self lg Hrep blend week)
    as (h1 & Hrun & Hh).
  assert (represents f h1 self lg) as Hrep1 by (by eapply represents_preserved).
  exists (placed f (power_rankings blend week lg).1), h1.
  split; [exact Hrun|]. split; [exact Hh|]. split; [exact Hrep1|].
  split; [|done].
  by destruct (power_rankings_refines f h1 self lg Hrep1 blend week)
    as (h2 & -> & _).
Qed.

Lemma power_rankings_leaves_the_league_witness :
  represents place (layout Demo.league) 0 Demo.league ∧
  ∃ out h1,
    Imp.power_rankings Demo.blend 0 3 (layout Demo.league) = (out, h1) ∧
    (∀ a o, layout Demo.league !! a = Some o → h1 !! a = Some o) ∧
    represents place h1 0 Demo.league ∧
    (Imp.power_rankings Demo.blend 0 3 h1).1 = out ∧
    out = placed place (power_rankings Demo.blend 3 Demo.league).1.
Proof.
  assert (represents place (layout Demo.league) 0 Demo.league) as Hrep.
  { split; [|split].
    - exists 1%nat. split; reflexivity.
    - repeat (apply Forall_cons; split; [by eexists|]). by apply Forall_nil.
    - intros [|[|[|i]]] t [= <-]; cbn [schedule Demo.league].
      + split; [|by exists 3%nat, 4%nat, 5%nat].
        repeat (apply Forall_cons; split; [by intros b [= <-]; eexists|]).
        by apply Forall_nil.
      + split; [|by exists 7%nat, 8%nat, 9%nat].
        repeat (apply Forall_cons; split; [by intros b [= <-]; eexists|]).
        by apply Forall_nil.
      + split; [|by exists 11%nat, 12%nat, 13%nat].
        repeat (apply Forall_cons; split; [by intros b [= <-]; eexists|]).
        by apply Forall_nil. }
  split; [exact Hrep|].
  exact (power_rankings_leaves_the_league place (layout Demo.league) 0%nat
           Demo.league Demo.blend 3 Hrep).
Defined.

(** C7, as the code has it: when the collaborator answers with a JSON
    document that carries the error message for the statuses 401 and 404,
    every status other than 200 makes [League.__init__] (and [scoreboard])
    raise the classified error of that status: [PrivateLeagueException] for
    401, [InvalidLeagueException] for 404, [UnknownLeagueException]
    otherwise.  Whatever the answer is, a league is constructed (and a
    scoreboard returned) only for status 200, where [_fetch_teams] runs on
    the document. *)
Theorem fetch_errors_classified id yr (r : Response) (self : League) :
  (well_formed_response r → status_code r ≠ 200 →
   (∃ e, League_init id yr r = Raise e ∧ classified (status_code r) e) ∧
   (∃ e, (scoreboard r self).1 = Raise e ∧ classified (status_code r) e)) ∧
  (∀ lg, League_init id yr r = Ok lg → status_code r = 200) ∧
  (∀ ms, (scoreboard r self).1 = Ok ms → status_code r = 200) ∧
  (∀ data, status_code r = 200 → body r = Some data →
     League_init id yr r =
       _fetch_teams (mkLeague id yr (Some 200) [] []) data).
Proof.
  unfold League_init, _fetch_league, scoreboard, json, check_status,
    well_formed_response.
  cbn. unfold_bind.
  destruct (body r) as [data|].
  2:{ split; [by intros (data & ? & _)|]. by repeat split. }
  destruct (Z.eqb_spec (status_code r) 401) as [E401|N401].
  { split.
    - intros (data' & [= <-] & Hmsg) _. destruct Hmsg as [msg ->]; [by left|].
      split; eexists; (split; [done|by apply classified_private]).
    - split; [|split]; [by destruct (error_message data)..|]. intros; lia. }
  destruct (Z.eqb_spec (status_code r) 404) as [E404|N404].
  { split.
    - intros (data' & [= <-] & Hmsg) _. destruct Hmsg as [msg ->]; [by right|].
      split; eexists; (split; [done|by apply classified_invalid]).
    - split; [|split]; [by destruct (error_message data)..|]. intros; lia. }
  destruct (Z.eqb_spec (status_code r) 200) as [E200|N200]; cbn.
  - split; [done|]. split; [done|]. split; [done|].
    intros data' _ [= <-]. by rewrite E200.
  - split.
    + intros _ _. split; eexists; (split; [done|by apply classified_unknown]).
    + by repeat split.
Qed.

Lemma fetch_errors_classified_witness :
  well_formed_response Inputs.denied ∧
  League_init 7 2017 Inputs.denied = Raise (PrivateLeagueException "No access") ∧
  ∃ e, League_init 7 2017 Inputs.denied = Raise e ∧ classified 401 e.
Proof.
  assert (well_formed_response Inputs.denied) as Hwf.
  { eexists. split; [reflexivity|]. intros _. eexists. reflexivity. }
  split; [exact Hwf|]. split; [reflexivity|].
  apply (proj1 (fetch_errors_classified 7 2017 Inputs.denied Demo.league) Hwf).
  cbn. lia.
Defined.

(** C7, as the claim has it, fails: [r.json()] and the lookup of the error
    message run before the exception of the status is raised, and neither
    is guarded.  A 500 answer whose body is not JSON raises [ValueError] and
    a 401 answer without [error] raises [KeyError], from the constructor as
    from [scoreboard]; neither is one of the three classified errors. *)
Lemma unclassified_errors_escape :
  League_init 7 2017 Inputs.outage = Raise ValueError ∧
  (scoreboard Inputs.outage Demo.league).1 = Raise ValueError ∧
  ¬ classified (status_code Inputs.outage) ValueError ∧
  League_init 7 2017 Inputs.bare_denial = Raise (KeyError "error") ∧
  (scoreboard Inputs.bare_denial Demo.league).1 = Raise (KeyError "error") ∧
  ¬ classified (status_code Inputs.bare_denial) (KeyError "error").
Proof.
  repeat split; try reflexivity; intros H; inversion H.
Qed.

(** C8, as the code has it: when the [mov] and [schedule] lists of a team
    differ in length after the truncation to [W] entries, the win-matrix
    builder raises no error on that account.  [zip] pairs the two lists up
    to the length of the shorter and ignores the surplus of the longer, and
    the team's row of 32 slots is returned whenever the paired opponents are
    linked teams with ids in 1..32. *)
Theorem mismatched_lengths_are_zipped st (week : Z) (t : Team) :
  let n := (length (slice_to (mov t) week) `min`
            length (slice_to (schedule t) week))%nat in
  length (slice_to (mov t) week) ≠ length (slice_to (schedule t) week) →
  Forall (in_capacity st) (take n (slice_to (schedule t) week)) →
  ∃ row, win_row st week t = Ok row ∧ length row = 32%nat ∧
    ∀ k, (k < 32)%nat →
      row !! k = Some (wins_in_slot st
                         (zip (take n (slice_to (mov t) week))
                              (take n (slice_to (schedule t) week))) k).
Proof. intros n _. apply win_row_up_to_shorter. Qed.

Lemma mismatched_lengths_are_zipped_witness :
  ∃ row,
    win_row (store Inputs.skewed) 2
            (mkTeam 1 "Al One" [100; 70] [TeamObj 1] [10; 20]) = Ok row ∧
    length row = 32%nat ∧
    ∀ k, (k < 32)%nat →
      row !! k = Some (wins_in_slot (store Inputs.skewed)
                         (zip (take 1 [10; 20]) (take 1 [TeamObj 1])) k).
Proof.
  apply (mismatched_lengths_are_zipped (store Inputs.skewed) 2
           (mkTeam 1 "Al One" [100; 70] [TeamObj 1] [10; 20])).
  - vm_compute. intros H. discriminate H.
  - change (Forall (in_capacity (store Inputs.skewed)) [TeamObj 1]).
    apply Forall_cons. split; [|by apply Forall_nil].
    eexists _, _. split; [reflexivity|]. split; [reflexivity|]. cbn. lia.
Defined.

(** C8, as the claim has it, fails: team 1 of this league has two margins
    and one opponent through week 2, and neither the win matrix nor the
    ranking raises; the second margin is dropped. *)
Lemma mismatched_lengths_not_rejected :
  (∃ t, store Inputs.skewed !! 0%nat = Some t ∧
        length (slice_to (mov t) 2) = 2%nat ∧
        length (slice_to (schedule t) 2) = 1%nat) ∧
  win_matrix Inputs.skewed 2 =
    Ok [ [0; 1] ++ replicate 30 0; replicate 32 0 ] ∧
  ¬ raises (win_matrix Inputs.skewed 2) ∧
  ¬ raises (power_rankings Demo.blend 2 Inputs.skewed).1.
Proof.
  split; [eexists; split; [reflexivity|]; split; reflexivity|].
  split; [vm_compute; reflexivity|].
  split; intros [e He]; vm_compute in He; discriminate He.
Qed.

(** C9: [schedule_for_sim] raises [NameError] for the name [data], whatever
    the league and whatever the scoreboard requests would answer; it issues
    no request and returns no schedule. *)
Theorem schedule_for_sim_raises_NameError (fetch : Z → Response) (self : League) :
  load_global "data" = Raise (NameError "data") ∧
  schedule_for_sim fetch self = (Raise (NameError "data"), self) ∧
  ∀ sched, (schedule_for_sim fetch self).1 ≠ Ok sched.
Proof. repeat split. intros sched H. discriminate H. Qed.

(** C10: a [Matchup] that is constructed has [home_team] and [home_score]
    from [data['teams'][0]]; the [elif] branch never runs; and when
    [teams[0]] is not flagged home, or the matchup is a bye, [away_team] and
    [away_score] are [None], second team or not. *)
Theorem matchup_home_is_first_team (data : ScoreboardJson.matchup) b (m : Matchup) :
  _fetch_matchup_info data = Ok (b, m) →
  b ≠ ElifBranch ∧
  ∃ t0, ScoreboardJson.teams data !! 0%nat = Some t0 ∧
    home_team m = RawId (ScoreboardJson.teamId t0) ∧
    home_score m = ScoreboardJson.score t0 ∧
    (ScoreboardJson.home t0 = false ∨ ScoreboardJson.bye data = true →
     away_team m = None ∧ away_score m = None).
Proof.
  unfold _fetch_matchup_info, home_first. unfold_bind.
  destruct (getitem (ScoreboardJson.teams data) 0) as [t0|] eqn:E0; [|done].
  apply (getitem_nat _ 0%nat) in E0.
  destruct (ScoreboardJson.home t0 && negb (ScoreboardJson.bye data)) eqn:Ec.
  - destruct (getitem (ScoreboardJson.teams data) 1) as [t1|]; [|done].
    intros [= <- <-]. split; [done|]. exists t0. do 3 (split; [done|]).
    apply andb_true_iff in Ec as [Hh Hb]. apply negb_true_iff in Hb.
    intros [?|?]; congruence.
  - intros [= <- <-]. split; [done|]. exists t0. by repeat split.
Qed.

Lemma matchup_home_is_first_team_witness :
  _fetch_matchup_info Inputs.away_first =
    Ok (ElseBranch, mkMatchup (RawId 4) 88 None None) ∧
  ElseBranch ≠ ElifBranch ∧
  ∃ t0, ScoreboardJson.teams Inputs.away_first !! 0%nat = Some t0 ∧
    home_team (mkMatchup (RawId 4) 88 None None) = RawId (ScoreboardJson.teamId t0) ∧
    home_score (mkMatchup (RawId 4) 88 None None) = ScoreboardJson.score t0 ∧
    (ScoreboardJson.home t0 = false ∨ ScoreboardJson.bye Inputs.away_first = true →
     away_team (mkMatchup (RawId 4) 88 None None) = None ∧
     away_score (mkMatchup (RawId 4) 88 None None) = None).
Proof.
  split; [reflexivity|].
  apply (matchup_home_is_first_team Inputs.away_first ElseBranch
           (mkMatchup (RawId 4) 88 None None)).
  reflexivity.
Defined.

(** * Further properties of the code *)

(** ** The rows of the win matrix *)

Lemma sum_Z_insert (l : list Z) : ∀ p x y,
  l !! p = Some x → sum_Z (<[p := y]> l) = sum_Z l - x + y.
Proof.
  induction l as [|z l IH]; intros p x y Hp; [done|].
  destruct p as [|p]; cbn in Hp.
  - injection Hp as ->. change (sum_Z (y :: l) = sum_Z (x :: l) - x + y).
    unfold sum_Z. cbn. lia.
  - change (sum_Z (z :: <[p:=y]> l) = sum_Z (z :: l) - x + y).
    pose proof (IH p x y Hp). unfold sum_Z in *. cbn. lia.
Qed.

Lemma sum_Z_zeros n : sum_Z (replicate n 0) = 0.
Proof. unfold sum_Z. induction n as [|n IH]; cbn; [done|]. by rewrite IH. Qed.

Lemma positive_margins_cons p pairs :
  positive_margins (p :: pairs) =
  (if 0 <? p.1 then 1 else 0) + positive_margins pairs.
Proof.
  unfold positive_margins. rewrite filter_cons.
  destruct (Z.ltb_spec 0 (p.1)).
  - rewrite decide_True by done. cbn [length]. lia.
  - rewrite decide_False by lia. lia.
Qed.

Lemma for_each_count_win_total st pairs : ∀ wins wins',
  for_each (count_win st) wins pairs = Ok wins' →
  length wins' = length wins ∧
  sum_Z wins' = sum_Z wins + positive_margins pairs.
Proof.
  induction pairs as [|[m o] pairs IH]; cbn [for_each]; intros wins wins' H.
  - injection H as <-. split; [done|]. unfold positive_margins. cbn. lia.
  - destruct (count_win st wins (m, o)) as [w1|] eqn:E1; cbn in H; [|done].
    destruct (IH _ _ H) as [Hlen Hsum].
    rewrite positive_margins_cons, Hlen, Hsum. cbn [fst].
    unfold count_win in E1. unfold_bind.
    destruct (ref_team_id st o) as [tid|]; [|done].
    destruct (0 <? m); [|injection E1 as <-; split; [done|lia]].
    unfold iadd_item in E1. unfold_bind.
    destruct (position wins (tid - 1)) as [k|]; [|done].
    destruct (wins !! k) as [x|] eqn:Ek; [|done]. injection E1 as <-.
    rewrite length_insert, (sum_Z_insert _ _ _ _ Ek). split; [done|lia].
Qed.

(** X1: a row that [power_rankings] computes has 32 slots, and its slots add
    up to the number of strictly positive margins among the pairs that the
    loop visited: every win is counted once, in one slot. *)
Theorem row_total_is_number_of_wins st (week : Z) (t : Team) row :
  win_row st week t = Ok row →
  length row = 32%nat ∧ sum_Z row = positive_margins (pairs_through week t).
Proof.
  unfold win_row. intros [Hlen Hsum]%for_each_count_win_total.
  rewrite length_replicate in Hlen. rewrite sum_Z_zeros in Hsum.
  split; [done|]. unfold pairs_through. lia.
Qed.

Lemma row_total_is_number_of_wins_witness :
  win_row (store Demo.league) 3
          (mkTeam 1 "Al One" [100; 70; 110] [TeamObj 0; TeamObj 1; TeamObj 2]
                  [10; 0; 50]) = Ok ([0; 1; 1] ++ replicate 29 0) ∧
  length ([0; 1; 1] ++ replicate 29 0) = 32%nat ∧
  sum_Z ([0; 1; 1] ++ replicate 29 0) = 2.
Proof.
  split; [vm_compute; reflexivity|].
  apply (row_total_is_number_of_wins (store Demo.league) 3
           (mkTeam 1 "Al One" [100; 70; 110] [TeamObj 0; TeamObj 1; TeamObj 2]
                   [10; 0; 50])).
  vm_compute. reflexivity.
Defined.

Lemma position_wraps {A} (l : list A) (i : Z) :
  - Z.of_nat (length l) ≤ i < 0 →
  position l i = Ok (Z.to_nat (Z.of_nat (length l) + i)).
Proof.
  intros Hi. unfold position.
  destruct (Z.leb_spec 0 i); [lia|]. cbn.
  destruct (Z.leb_spec (- Z.of_nat (length l)) i); [|lia].
  destruct (Z.ltb_spec i 0); [done|lia].
Qed.

Lemma position_out_of_range {A} (l : list A) (i : Z) :
  i < - Z.of_nat (length l) ∨ Z.of_nat (length l) ≤ i →
  position l i = Raise IndexError.
Proof.
  intros Hi. unfold position.
  destruct (Z.leb_spec 0 i), (Z.ltb_spec i (Z.of_nat (length l))); cbn;
    try lia;
    destruct (Z.leb_spec (- Z.of_nat (length l)) i), (Z.ltb_spec i 0); cbn;
    try done; lia.
Qed.

(** X2: the subscript [wins[opp]] of the loop.  For a linked opponent with
    id [tid]: a margin that is not positive leaves the row alone whatever
    the id; a win with [-31 <= tid <= 32] adds one to slot
    [(tid - 1) mod 32] (ids below 1 count from the end of the row) and
    changes no other slot; a win with any other id raises [IndexError]. *)
Theorem count_win_bounds st (wins : list Z) (m : Z) b tb :
  st !! b = Some tb → length wins = 32%nat →
  (m ≤ 0 → count_win st wins (m, TeamObj b) = Ok wins) ∧
  (0 < m → -31 ≤ team_id tb ≤ 32 →
   ∃ x, wins !! Z.to_nat ((team_id tb - 1) mod 32) = Some x ∧
        count_win st wins (m, TeamObj b) =
          Ok (<[Z.to_nat ((team_id tb - 1) mod 32) := x + 1]> wins)) ∧
  (0 < m → team_id tb < -31 ∨ 32 < team_id tb →
   count_win st wins (m, TeamObj b) = Raise IndexError).
Proof.
  intros Hb Hlen. unfold count_win, ref_team_id, team_at. unfold_bind.
  rewrite Hb. repeat split.
  - intros Hm. destruct (Z.ltb_spec 0 m); [lia|done].
  - intros Hm Hid. destruct (Z.ltb_spec 0 m); [|lia].
    unfold iadd_item. unfold_bind.
    destruct (Z_lt_le_dec (team_id tb - 1) 0) as [Hneg|Hpos].
    + assert ((team_id tb - 1) mod 32 = Z.of_nat 32 + (team_id tb - 1)) as ->.
      { symmetry. apply Z.mod_unique with (q := -1); lia. }
      rewrite position_wraps by lia. rewrite Hlen.
      destruct (lookup_lt_is_Some_2 wins
                  (Z.to_nat (Z.of_nat 32 + (team_id tb - 1)))) as [x Hx];
        [lia|].
      exists x. by rewrite Hx.
    + rewrite (Z.mod_small (team_id tb - 1) 32) by lia.
      rewrite position_in_range by lia.
      destruct (lookup_lt_is_Some_2 wins (Z.to_nat (team_id tb - 1)))
        as [x Hx]; [lia|].
      exists x. by rewrite Hx.
  - intros Hm Hid. destruct (Z.ltb_spec 0 m); [|lia].
    unfold iadd_item. unfold_bind. rewrite position_out_of_range; [done|lia].
Qed.

Lemma count_win_bounds_witness :
  count_win (store Demo.league) (replicate 32 0) (5, TeamObj 2) =
    Ok (<[2%nat := 1]> (replicate 32 0)) ∧
  (0 < 5 → -31 ≤ 3 ≤ 32 →
   ∃ x, replicate 32 0 !! Z.to_nat ((3 - 1) mod 32) = Some x ∧
        count_win (store Demo.league) (replicate 32 0) (5, TeamObj 2) =
          Ok (<[Z.to_nat ((3 - 1) mod 32) := x + 1]> (replicate 32 0))).
Proof.
  split; [vm_compute; reflexivity|].
  apply (count_win_bounds (store Demo.league) (replicate 32 0) 5 2%nat
           (mkTeam 3 "Cy Three" [80; 85; 60] [TeamObj 2; TeamObj 0; TeamObj 1]
                   [0; -10; -50])).
  - reflexivity.
  - reflexivity.
Defined.

(** ** The week argument of [power_rankings] *)

Lemma comprehension_ext_in {A B} (f g : A → result B) xs :
  Forall (λ x, f x = g x) xs → comprehension f xs = comprehension g xs.
Proof.
  induction 1 as [|x xs Hx _ IH]; cbn; [done|]. by rewrite Hx, IH.
Qed.

Lemma comprehension_const {A B} (f : A → result B) (y : B) xs :
  Forall (λ x, f x = Ok y) xs →
  comprehension f xs = Ok (replicate (length xs) y).
Proof.
  induction 1 as [|x xs Hx _ IH]; cbn; [done|]. by rewrite Hx, IH.
Qed.

Lemma win_matrix_same_slices (self : League) (w1 w2 : Z) :
  Forall (λ t, slice_to (mov t) w2 = slice_to (mov t) w1 ∧
               slice_to (schedule t) w2 = slice_to (schedule t) w1)
         (store self) →
  win_matrix self w2 = win_matrix self w1.
Proof.
  intros Hsame. apply comprehension_ext_in, Forall_forall. intros a _.
  unfold team_at. destruct (store self !! a) as [t|] eqn:Ea; [|done]. cbn.
  eapply Forall_lookup_1 in Hsame as [Hm Hs]; [|exact Ea].
  unfold win_row. by rewrite Hm, Hs.
Qed.

(** X3: at week 0 nothing is read from the teams: whatever their schedules
    hold (unlinked opponents and ids beyond the slots included),
    [power_rankings] builds a matrix of one row of 32 zeros per team. *)
Theorem win_matrix_week_zero (self : League) :
  Forall (λ a, is_Some (store self !! a)) (teams self) →
  win_matrix self 0 = Ok (replicate (length (teams self)) (replicate 32 0)).
Proof.
  intros Hvalid. unfold win_matrix.
  rewrite <- (Permutation_length (teams_sorted_perm self)).
  apply comprehension_const. rewrite <- (teams_sorted_perm self) in Hvalid.
  eapply Forall_impl; [exact Hvalid|]. cbn. intros a [t Ht].
  unfold team_at. by rewrite Ht.
Qed.

Lemma win_matrix_week_zero_witness :
  win_matrix Inputs.skewed 0 = Ok (replicate 2 (replicate 32 0)).
Proof.
  apply (win_matrix_week_zero Inputs.skewed).
  cbn. repeat constructor; by eexists.
Defined.

(** X4: a week at or beyond the end of every team's lists reads all of
    them, so all such weeks give the same win matrix (or the same error). *)
Theorem win_matrix_after_season (self : League) (w1 w2 : Z) :
  Forall (λ t, Z.of_nat (length (mov t)) ≤ w1 ∧
               Z.of_nat (length (schedule t)) ≤ w1) (store self) →
  w1 ≤ w2 →
  win_matrix self w2 = win_matrix self w1.
Proof.
  intros Hlen Hw. apply win_matrix_same_slices.
  eapply Forall_impl; [exact Hlen|]. cbn. intros t [Hm Hs].
  rewrite !slice_to_nonneg by lia. rewrite !take_ge by lia. done.
Qed.

Lemma win_matrix_after_season_witness :
  win_matrix Demo.league 17 = win_matrix Demo.league 3.
Proof.
  apply (win_matrix_after_season Demo.league 3 17); [|lia].
  cbn. repeat constructor; cbn; lia.
Defined.

(** X5: a negative week counts from the end, as Python's slices do: when
    every team has [n] margins and [n] opponents, [power_rankings(-k)]
    builds the win matrix of the first [n - k] weeks (of no week when
    [k >= n]). *)
Theorem negative_week_counts_from_the_end (self : League) (n : nat) (k : Z) :
  Forall (λ t, length (mov t) = n ∧ length (schedule t) = n) (store self) →
  0 < k →
  win_matrix self (- k) = win_matrix self (Z.max 0 (Z.of_nat n - k)).
Proof.
  intros Hlen Hk. apply win_matrix_same_slices.
  eapply Forall_impl; [exact Hlen|]. cbn. intros t [Hm Hs].
  unfold slice_to. destruct (Z.leb_spec 0 (- k)); [lia|].
  destruct (Z.leb_spec 0 (Z.max 0 (Z.of_nat n - k))); [|lia].
  rewrite Hm, Hs, Z.opp_involutive.
  replace (Z.to_nat (Z.max 0 (Z.of_nat n - k))) with (n - Z.to_nat k)%nat by lia.
  done.
Qed.

Lemma negative_week_counts_from_the_end_witness :
  win_matrix Demo.league (- 1) = win_matrix Demo.league 2 ∧
  win_matrix Demo.league (- 1) =
    Ok [ [0; 1] ++ replicate 30 0; [0; 0; 1] ++ replicate 29 0; replicate 32 0 ].
Proof.
  split; [|vm_compute; reflexivity].
  apply (negative_week_counts_from_the_end Demo.league 3 1); [|lia].
  cbn. repeat constructor.
Defined.

Lemma for_each_stops {A S} (body : S → A → result S) xs x ys acc acc' e :
  for_each body acc xs = Ok acc' → body acc' x = Raise e →
  for_each body acc (xs ++ x :: ys) = Raise e.
Proof.
  intros Hxs Hx. rewrite for_each_app, Hxs. cbn. by rewrite Hx.
Qed.

(** X6: [opponent.team_id] is read before the margin is looked at, so a
    schedule entry that is still a raw id raises [AttributeError] when the
    loop reaches it, on a loss as on a win. *)
Theorem unlinked_opponent_raises st (week : Z) (t : Team) before m id after :
  pairs_through week t = before ++ (m, RawId id) :: after →
  Forall (λ p, in_capacity st p.2) before →
  win_row st week t = Raise AttributeError.
Proof.
  intros Hpairs Hbefore. unfold win_row. fold (pairs_through week t).
  rewrite Hpairs.
  destruct (for_each_count_win st before (replicate 32 0) Hbefore)
    as (wins & Hwins & _); [by rewrite length_replicate|].
  by eapply for_each_stops.
Qed.

Lemma unlinked_opponent_raises_witness :
  win_row (store Demo.league) 2
          (mkTeam 9 "No One" [1; 2] [TeamObj 0; RawId 5] [3; -4])
  = Raise AttributeError.
Proof.
  apply (unlinked_opponent_raises (store Demo.league) 2
           (mkTeam 9 "No One" [1; 2] [TeamObj 0; RawId 5] [3; -4])
           [(3, TeamObj 0)] (-4) 5 []).
  - reflexivity.
  - repeat constructor. cbn.
    eexists _, _. split; [reflexivity|]. split; [reflexivity|]. cbn. lia.
Defined.

(** ** [Team.__init__] *)

Lemma schedule_entry_raw id it s o :
  schedule_entry id it = Ok (s, o) → ∃ raw, o = RawId raw.
Proof.
  unfold schedule_entry. unfold_bind.
  destruct (getitem _ 0) as [m|]; [|done].
  destruct (negb _); [destruct (_ =? _)|];
    (destruct (getitem _ 0); [|done]); intros [= <- <-]; eauto.
Qed.

Lemma fetch_schedule_spec items : ∀ self t,
  for_each
    (λ self it,
       Py.bind (schedule_entry (team_id self) it)
         (λ '(score, opponentId),
            Ok (mkTeam (team_id self) (owner self) (scores self ++ [score])
                       (schedule self ++ [opponentId]) (mov self))))
    self items = Ok t →
  team_id t = team_id self ∧ owner t = owner self ∧ mov t = mov self ∧
  ∃ entries,
    Forall2 (λ it p, schedule_entry (team_id self) it = Ok p) items entries ∧
    scores t = scores self ++ entries.*1 ∧
    schedule t = schedule self ++ entries.*2.
Proof.
  induction items as [|it items IH]; intros self t; cbn [for_each].
  - intros [= <-]. repeat split. exists []. by rewrite !app_nil_r.
  - destruct (schedule_entry (team_id self) it) as [[s o]|] eqn:E; cbn;
      [|done].
    intros (Hid & Hown & Hmov & entries & Hall & Hsc & Hsch)%IH. cbn in *.
    repeat split; [done..|]. exists ((s, o) :: entries).
    split; [by constructor|]. cbn. by rewrite Hsc, Hsch, <- !app_assoc.
Qed.

Lemma Team_init_entries (data : SettingsJson.team) (t : Team) :
  Team_init data = Ok t →
  team_id t = SettingsJson.teamId data ∧
  (∃ o, SettingsJson.owners data !! 0%nat = Some o ∧
        owner t = (SettingsJson.firstName o ++ " " ++ SettingsJson.lastName o)%string) ∧
  mov t = [] ∧
  length (scores t) = length (SettingsJson.scheduleItems data) ∧
  length (schedule t) = length (SettingsJson.scheduleItems data) ∧
  Forall2 (λ it p, schedule_entry (SettingsJson.teamId data) it = Ok p ∧
                   ∃ raw, p.2 = RawId raw)
          (SettingsJson.scheduleItems data) (zip (scores t) (schedule t)).
Proof.
  unfold Team_init. unfold_bind.
  destruct (read_display_entries data); [|done].
  destruct (getitem (SettingsJson.owners data) 0) as [o|] eqn:Eo; [|done].
  apply (getitem_nat _ 0%nat) in Eo.
  intros (Hid & Hown & Hmov & entries & Hall & Hsc & Hsch)%fetch_schedule_spec.
  cbn in *. split; [done|]. split; [eauto|]. split; [done|].
  pose proof (Forall2_length _ _ _ Hall) as Hlen.
  rewrite Hsc, Hsch, !length_fmap, zip_fst_snd. repeat split; [done..|].
  eapply Forall2_impl; [exact Hall|]. cbn. intros it [s op] Hent.
  split; [done|]. by eapply schedule_entry_raw.
Qed.

(** X7: a constructed [Team] has the id of its feed entry, the name of the
    first owner, no margins yet, and one score and one opponent id (a raw
    id, not yet a team) per schedule item, in the order of the feed. *)
Theorem team_init_records_schedule (data : SettingsJson.team) (t : Team) :
  Team_init data = Ok t →
  team_id t = SettingsJson.teamId data ∧
  (∃ o, SettingsJson.owners data !! 0%nat = Some o ∧
        owner t = (SettingsJson.firstName o ++ " " ++ SettingsJson.lastName o)%string) ∧
  mov t = [] ∧
  length (scores t) = length (SettingsJson.scheduleItems data) ∧
  length (schedule t) = length (SettingsJson.scheduleItems data) ∧
  Forall2 (λ it p, schedule_entry (SettingsJson.teamId data) it = Ok p ∧
                   ∃ raw, p.2 = RawId raw)
          (SettingsJson.scheduleItems data) (zip (scores t) (schedule t)).
Proof. apply Team_init_entries. Qed.

Lemma team_init_records_schedule_witness :
  Team_init (Demo.team_json 1 "Al" "One"
               [Demo.week1; Demo.bye_week 1 70; Demo.week3])
  = Ok (mkTeam 1 "Al One" [100; 70; 110] [RawId 2; RawId 1; RawId 3] []) ∧
  length [100; 70; 110] = 3%nat.
Proof.
  split; [vm_compute; reflexivity|].
  apply (team_init_records_schedule
           (Demo.team_json 1 "Al" "One"
              [Demo.week1; Demo.bye_week 1 70; Demo.week3])
           (mkTeam 1 "Al One" [100; 70; 110] [RawId 2; RawId 1; RawId 3] [])).
  vm_compute. reflexivity.
Defined.

Lemma getitem_0 {A} (l : list A) :
  getitem l 0 = match l with [] => Raise IndexError | x :: _ => Ok x end.
Proof.
  destruct l as [|x l]; [done|]. unfold getitem.
  rewrite position_in_range by (cbn [length]; lia). done.
Qed.










(** ** [League._fetch_teams]: linking the schedules *)

Lemma matches_true st id b :
  matches st (RawId id) b = true ↔ ∃ t, st !! b = Some t ∧ team_id t = id.
Proof.
  unfold matches. destruct (st !! b) as [t|].
  - rewrite Z.eqb_eq. split; [eauto|]. by intros (t' & [= <-] & ->).
  - split; [done|]. by intros (t & ? & _).
Qed.

Lemma matches_frame st st' x b :
  same_ids st st' → matches st x b = matches st' x b.
Proof.
  intros H. unfold matches. destruct x as [id|]; [|done]. specialize (H b).
  destruct (st !! b), (st' !! b); cbn in *; try done. by injection H as ->.
Qed.

Lemma link_entry_frame st st' addrs x :
  same_ids st st' → link_entry st addrs x = link_entry st' addrs x.
Proof.
  intros H. unfold link_entry. generalize x at 2 4. intros cur. revert cur.
  induction addrs as [|b addrs IH]; intros cur; cbn; [done|].
  by rewrite (matches_frame st st' x b H), IH.
Qed.

Lemma link_fold st id addrs : ∀ cur,
  (foldl (λ cur b, if matches st (RawId id) b then TeamObj b else cur)
         cur addrs = cur ∧
   Forall (λ b, matches st (RawId id) b = false) addrs) ∨
  (∃ b, foldl (λ cur b, if matches st (RawId id) b then TeamObj b else cur)
              cur addrs = TeamObj b ∧
        b ∈ addrs ∧ matches st (RawId id) b = true).
Proof.
  induction addrs as [|b addrs IH]; intros cur; cbn [foldl].
  - left. by split.
  - destruct (matches st (RawId id) b) eqn:Eb.
    + right. destruct (IH (TeamObj b)) as [[Hr Hall]|(b' & Hr & Hin & Hm)].
      * exists b. split; [done|]. split; [left|done].
      * exists b'. split; [done|]. split; [by right|done].
    + destruct (IH cur) as [[Hr Hall]|(b' & Hr & Hin & Hm)].
      * left. split; [done|]. by constructor.
      * right. exists b'. split; [done|]. split; [by right|done].
Qed.

(** X9: the loop that links a schedule slot keeps assigning while it walks
    [self.teams], so of several teams with the opponent's id the last one
    is linked; and a slot is left as the raw id exactly when no team has
    that id. *)
Theorem link_entry_last_match st (addrs : list nat) (id : Z) :
  (∀ before b after,
     addrs = before ++ b :: after →
     matches st (RawId id) b = true →
     Forall (λ c, matches st (RawId id) c = false) after →
     link_entry st addrs (RawId id) = TeamObj b) ∧
  (link_entry st addrs (RawId id) = RawId id ↔
   Forall (λ c, matches st (RawId id) c = false) addrs).
Proof.
  split.
  - intros before b after -> Hb Hafter. unfold link_entry.
    rewrite foldl_app. cbn [foldl]. rewrite Hb.
    destruct (link_fold st id after (TeamObj b)) as [[Hr _]|(c & _ & Hin & Hc)];
      [done|].
    eapply Forall_forall in Hafter; [|exact Hin]. cbv beta in Hafter. congruence.
  - unfold link_entry.
    destruct (link_fold st id addrs (RawId id)) as [[Hr Hall]|(c & Hr & Hin & Hc)].
    + by split.
    + split; [by rewrite Hr|]. intros Hall.
      eapply Forall_forall in Hall; [|exact Hin]. cbv beta in Hall. congruence.
Qed.

Lemma link_entry_last_match_witness :
  link_entry [mkTeam 5 "A" [] [] []; mkTeam 5 "B" [] [] []] [0; 1]%nat (RawId 5)
  = TeamObj 1 ∧
  link_entry [mkTeam 5 "A" [] [] []; mkTeam 5 "B" [] [] []] [0; 1]%nat (RawId 6)
  = RawId 6.
Proof.
  split.
  - destruct (link_entry_last_match
                [mkTeam 5 "A" [] [] []; mkTeam 5 "B" [] [] []] [0; 1]%nat 5)
      as [H _].
    apply (H [0%nat] 1%nat []); [reflexivity|reflexivity|by apply Forall_nil].
  - destruct (link_entry_last_match
                [mkTeam 5 "A" [] [] []; mkTeam 5 "B" [] [] []] [0; 1]%nat 6)
      as [_ H].
    apply H. repeat constructor.
Defined.

Lemma link_pass_full addrs0 addrs : ∀ st st',
  NoDup addrs → for_each (link_team addrs0) st addrs = Ok st' →
  length st' = length st ∧
  ∀ a t', st' !! a = Some t' →
    ∃ t, st !! a = Some t ∧ team_id t' = team_id t ∧ scores t' = scores t ∧
      mov t' = mov t ∧
      ((a ∈ addrs ∧ schedule t' = link_entry st addrs0 <$> schedule t) ∨
       ((a ∉ addrs) ∧ schedule t' = schedule t)).
Proof.
  induction addrs as [|a0 rest IH]; intros st st' Hnd; cbn.
  - intros [= <-]. split; [done|]. intros a t' Ha. exists t'.
    repeat split; auto. right. split; [apply not_elem_of_nil|done].
  - apply NoDup_cons in Hnd as [Hnotin Hnd].
    unfold link_team at 1, team_at. unfold_bind.
    destruct (st !! a0) as [t0|] eqn:E0; [|done].
    set (t0' := mkTeam _ _ _ _ _). intros Hrest.
    destruct (IH _ _ Hnd Hrest) as [Hlen Hall].
    rewrite length_insert in Hlen. split; [done|].
    assert (a0 < length st)%nat as Hlt by (by eapply lookup_lt_Some).
    assert (same_ids st (<[a0:=t0']> st)) as Hframe.
    { intros b. destruct (decide (a0 = b)) as [<-|Hne].
      - rewrite list_lookup_insert_eq, E0 by done. done.
      - by rewrite list_lookup_insert_ne. }
    intros a t' Ha.
    destruct (Hall a t' Ha) as (t1 & H1 & Hid & Hsc & Hmv & Hsch).
    destruct (decide (a0 = a)) as [<-|Hne].
    + rewrite list_lookup_insert_eq in H1 by done. injection H1 as <-.
      exists t0. repeat split; [done..|]. left. split; [left|].
      destruct Hsch as [[Hin _]|[_ Hsch]]; [done|]. done.
    + rewrite list_lookup_insert_ne in H1 by done.
      exists t1. repeat split; [done..|].
      destruct Hsch as [[Hin Hsch]|[Hnin Hsch]].
      * left. split; [by right|]. rewrite Hsch.
        apply list_fmap_ext. intros _ x _.
        symmetry. by apply link_entry_frame.
      * right. split; [|done]. intros [->|?]%elem_of_cons; done.
Qed.

(** The steps of a successful [League.__init__], feed included. *)
Lemma League_init_steps id yr r self :
  League_init id yr r = Ok self →
  ∃ data settings created st1,
    body r = Some data ∧ leaguesettings data = Some settings ∧
    comprehension Team_init (SettingsJson.teams settings) = Ok created ∧
    for_each (link_team (seq 0 (length created))) created
             (seq 0 (length created)) = Ok st1 ∧
    for_each mov_team st1 (seq 0 (length created)) = Ok (store self) ∧
    teams self = sorted (team_id_at (store self)) (seq 0 (length created)) ∧
    league_id self = id ∧ year self = yr ∧ status self = Some 200.
Proof.
  unfold League_init, _fetch_league, json, check_status. unfold_bind.
  destruct (body r) as [data|] eqn:Ebody; [|done].
  destruct (status_code r =? 401); [by destruct (error_message data)|].
  destruct (status_code r =? 404); [by destruct (error_message data)|].
  destruct (Z.eqb_spec (status_code r) 200) as [H200|]; cbn; [|done].
  unfold _fetch_teams, item. unfold_bind. cbn.
  destruct (leaguesettings data) as [settings|] eqn:Esettings; [|done].
  destruct (comprehension Team_init _) as [created|] eqn:Ecreated; [|done].
  destruct (for_each (link_team _) _ _) as [st1|] eqn:E1; [|done].
  destruct (for_each mov_team _ _) as [st2|] eqn:E2; [|done].
  intros [= <-]. cbn. exists data, settings, created, st1.
  rewrite H200. by repeat split.
Qed.

(** Every team of a constructed league, traced back to its feed entry. *)
Lemma League_init_teams id yr r self :
  League_init id yr r = Ok self →
  ∃ data settings created,
    body r = Some data ∧ leaguesettings data = Some settings ∧
    Forall2 (λ td t0, Team_init td = Ok t0) (SettingsJson.teams settings)
            created ∧
    length (store self) = length created ∧
    (∀ a t, store self !! a = Some t →
       ∃ t0, created !! a = Some t0 ∧ team_id t = team_id t0 ∧
         scores t = scores t0 ∧
         schedule t =
           link_entry created (seq 0 (length created)) <$> schedule t0) ∧
    teams self = sorted (team_id_at (store self)) (seq 0 (length created)).
Proof.
  intros (data & settings & created & st1 & Hbody & Hset & Hcreated & Hlink &
          Hmov & Hteams & _)%League_init_steps.
  exists data, settings, created. split; [done|]. split; [done|].
  split; [by apply comprehension_inv|].
  destruct (link_pass_full _ _ _ _ (NoDup_seq _ _) Hlink) as [Hlen1 Hall1].
  destruct (mov_pass_spec _ _ _ (NoDup_seq _ _) Hmov) as [Hlen2 Hall2].
  split; [by rewrite Hlen2, Hlen1|]. split; [|done].
  intros a t2 Ha.
  destruct (Hall2 a t2 Ha) as (t1 & H1 & Hid2 & Hsc2 & Hsch2 & _).
  destruct (Hall1 a t1 H1) as (t0 & H0 & Hid1 & Hsc1 & _ & Hsch1).
  exists t0. split; [done|]. split; [congruence|]. split; [congruence|].
  destruct Hsch1 as [[_ Hsch1]|[Hnin _]]; [congruence|].
  exfalso. apply Hnin, elem_of_seq. apply lookup_lt_Some in H0. lia.
Qed.

(** X10: the store of a constructed league has one team per team of the
    feed, in the order of the feed and with the feed's id; week by week the
    team holds the score that the feed gives it and, as opponent, the team
    object whose id is the opponent id of the feed.  So [League(...)]
    succeeds only if every opponent id of every schedule is the id of a
    team of the league. *)
Theorem schedule_links_feed_opponents id yr r (self : League) :
  League_init id yr r = Ok self →
  ∃ data settings,
    body r = Some data ∧ leaguesettings data = Some settings ∧
    Forall2 (built_from (store self)) (SettingsJson.teams settings) (store self).
Proof.
  intros Hinit. pose proof (League_init_consistent _ _ _ _ Hinit) as [_ Hcons].
  destruct (League_init_teams _ _ _ _ Hinit)
    as (data & settings & created & Hbody & Hset & Hcreated & Hlen & Hall & _).
  exists data, settings. split; [done|]. split; [done|].
  apply Forall2_same_length_lookup_2.
  { apply Forall2_length in Hcreated. lia. }
  intros a td t Htd Ht.
  destruct (Hall a t Ht) as (t0 & H0 & Hid & Hsc & Hsch).
  pose proof (Forall2_lookup_lr _ _ _ _ _ _ Hcreated Htd H0) as Hinit0.
  apply Team_init_entries in Hinit0
    as (Hid0 & _ & _ & Hlsc & Hlsch & Hentries).
  split; [congruence|].
  apply Forall2_same_length_lookup_2.
  { rewrite length_zip_with, Hsc, Hsch, length_fmap. lia. }
  intros w it [s o] Hit Hp.
  apply lookup_zip_with_Some in Hp as (s' & o' & [= <- <-] & Hs & Ho).
  rewrite Hsch, list_lookup_fmap in Ho.
  destruct (schedule t0 !! w) as [o0|] eqn:Eo0; [|done]. injection Ho as Ho.
  assert (zip (scores t0) (schedule t0) !! w = Some (s, o0)) as Hzip.
  { apply lookup_zip_with_Some. exists s, o0. by rewrite <- Hsc. }
  destruct (Forall2_lookup_lr _ _ _ _ _ _ Hentries Hit Hzip)
    as [Hent [raw Hraw]]. cbn in Hraw. subst o0.
  eapply Forall_lookup_1 in Hcons; [|exact Ht]. destruct Hcons as [_ Hweeks].
  destruct (Hweeks w o) as (m & _ & b & tb & _ & _ & Hob & Hb & _).
  { by rewrite Hsch, list_lookup_fmap, Eo0, <- Ho. }
  exists raw, b, tb. cbn. split; [done|]. split; [done|]. split; [done|].
  unfold link_entry in Ho.
  destruct (link_fold created raw (seq 0 (length created)) (RawId raw))
    as [[Hr _]|(c & Hr & _ & Hc)]; [congruence|].
  assert (c = b) as -> by congruence.
  apply matches_true in Hc as (tc & Hc & <-).
  destruct (Hall b tb Hb) as (tb0 & Hb0 & Hidb & _). congruence.
Qed.

Lemma schedule_links_feed_opponents_witness :
  League_init 7 2017 Demo.response = Ok Demo.league ∧
  ∃ data settings,
    body Demo.response = Some data ∧ leaguesettings data = Some settings ∧
    Forall2 (built_from (store Demo.league)) (SettingsJson.teams settings)
            (store Demo.league).
Proof.
  split; [vm_compute; reflexivity|].
  apply (schedule_links_feed_opponents 7 2017 Demo.response Demo.league).
  vm_compute. reflexivity.
Defined.

(** ** [League._fetch_teams]: margins and order *)

(** X11: in a constructed league every team has as many scores and margins
    as schedule slots, every slot holds a team of the league that has a
    score for that week, and the margin of the week is the team's score
    minus that opponent's score of the same week. *)
Theorem margins_are_score_differences id yr r (self : League) a (t : Team) :
  League_init id yr r = Ok self → store self !! a = Some t →
  length (scores t) = length (schedule t) ∧
  length (mov t) = length (schedule t) ∧
  ∀ w o, schedule t !! w = Some o →
    ∃ b tb s s', o = TeamObj b ∧ store self !! b = Some tb ∧
      scores t !! w = Some s ∧ scores tb !! w = Some s' ∧
      mov t !! w = Some (s - s').
Proof.
  intros Hinit Ha.
  pose proof (League_init_consistent _ _ _ _ Hinit) as [_ Hcons].
  destruct (League_init_teams _ _ _ _ Hinit)
    as (data & settings & created & _ & _ & Hcreated & _ & Hall & _).
  eapply Forall_lookup_1 in Hcons; [|exact Ha]. destruct Hcons as [Hlen Hweeks].
  split; [|split; [done|]].
  - destruct (Hall a t Ha) as (t0 & H0 & _ & Hsc & Hsch).
    destruct (Forall2_lookup_r _ _ _ _ _ Hcreated H0) as (td & _ & Hinit0).
    apply Team_init_entries in Hinit0 as (_ & _ & _ & Hlsc & Hlsch & _).
    rewrite Hsc, Hsch, length_fmap. lia.
  - intros w o Hw.
    destruct (Hweeks w o Hw) as (m & Hm & b & tb & s & s' & ? & ? & ? & ? & ->).
    by exists b, tb, s, s'.
Qed.

Lemma margins_are_score_differences_witness :
  League_init 7 2017 Demo.response = Ok Demo.league ∧
  length [100; 70; 110] = length [TeamObj 0; TeamObj 1; TeamObj 2] ∧
  length [10; 0; 50] = length [TeamObj 0; TeamObj 1; TeamObj 2].
Proof.
  split; [vm_compute; reflexivity|].
  pose proof (margins_are_score_differences 7 2017 Demo.response Demo.league
                1%nat
                (mkTeam 1 "Al One" [100; 70; 110]
                        [TeamObj 0; TeamObj 1; TeamObj 2] [10; 0; 50])) as H.
  destruct H as (H1 & H2 & _); [vm_compute; reflexivity|reflexivity|].
  split; [exact H1|exact H2].
Defined.

(** X12: when two teams of a constructed league have each other in the same
    week, their margins of that week are opposite; a team that has itself in
    a week (its bye, as the feed lists it) has margin 0 there. *)
Theorem margins_antisymmetric id yr r (self : League) a b ta tb w :
  League_init id yr r = Ok self →
  store self !! a = Some ta → store self !! b = Some tb →
  schedule ta !! w = Some (TeamObj b) → schedule tb !! w = Some (TeamObj a) →
  (∃ m, mov ta !! w = Some m ∧ mov tb !! w = Some (- m)) ∧
  (a = b → mov ta !! w = Some 0).
Proof.
  intros Hinit Ha Hb Hab Hba.
  pose proof (League_init_consistent _ _ _ _ Hinit) as [_ Hcons].
  pose proof (Forall_lookup_1 _ _ _ _ Hcons Ha) as [_ Hwa].
  pose proof (Forall_lookup_1 _ _ _ _ Hcons Hb) as [_ Hwb].
  destruct (Hwa w _ Hab) as (m & Hm & b' & tb' & s & s' & [= <-] & Hb' & Hs & Hs' & ->).
  destruct (Hwb w _ Hba) as (m' & Hm' & a' & ta' & u & u' & [= <-] & Ha' & Hu & Hu' & ->).
  assert (tb' = tb) as -> by congruence. assert (ta' = ta) as -> by congruence.
  assert (u = s') as -> by congruence. assert (u' = s) as -> by congruence.
  split.
  - exists (s - s'). split; [done|]. rewrite Hm'. f_equal. lia.
  - intros ->. assert (tb = ta) as -> by congruence.
    rewrite Hm. f_equal. assert (s = s') by congruence. lia.
Qed.

Lemma margins_antisymmetric_witness :
  League_init 7 2017 Demo.response = Ok Demo.league ∧
  (∃ m, [10; 0; 50] !! 0%nat = Some m ∧ [-10; 10; 0] !! 0%nat = Some (- m)).
Proof.
  split; [vm_compute; reflexivity|].
  apply (margins_antisymmetric 7 2017 Demo.response Demo.league 1%nat 0%nat
           (mkTeam 1 "Al One" [100; 70; 110]
                   [TeamObj 0; TeamObj 1; TeamObj 2] [10; 0; 50])
           (mkTeam 2 "Bo Two" [90; 95; 75] [TeamObj 1; TeamObj 2; TeamObj 0]
                   [-10; 10; 0]) 0%nat);
    (vm_compute; reflexivity) || reflexivity.
Defined.

Lemma sort_with_sorted_id {A} (le : A → A → bool) l :
  Sorted (λ a b, le a b = true) l → sort_with le l = l.
Proof.
  induction 1 as [|x l Hs IH Hhd]; [done|].
  change (sort_with le (x :: l)) with (insert_sorted le x (sort_with le l)).
  rewrite IH. destruct Hhd as [|y l Hxy]; cbn; [done|]. by rewrite Hxy.
Qed.

Lemma sorted_twice {A} (key : A → Z) l :
  Py.sorted key (Py.sorted key l) = Py.sorted key l.
Proof.
  unfold Py.sorted. apply sort_with_sorted_id, sort_with_Sorted.
  intros x y. destruct (Z.leb_spec (key x) (key y)); [by left|].
  right. apply Z.leb_le. lia.
Qed.

(** X13: [self.teams] of a constructed league lists every team once, in
    ascending order of [team_id]; so the sort with which [power_rankings]
    starts returns [self.teams] as it is. *)
Theorem league_teams_sorted id yr r (self : League) :
  League_init id yr r = Ok self →
  ascending_ids (store self) (teams self) ∧
  teams self ≡ₚ seq 0 (length (store self)) ∧
  NoDup (teams self) ∧
  teams_sorted self = teams self.
Proof.
  intros Hinit. pose proof (League_init_consistent _ _ _ _ Hinit) as [Hperm _].
  destruct (League_init_teams _ _ _ _ Hinit)
    as (_ & _ & created & _ & _ & _ & _ & _ & Hteams).
  split; [rewrite Hteams; apply sorted_Sorted|]. split; [done|].
  split; [rewrite Hperm; apply NoDup_seq|].
  unfold teams_sorted. rewrite Hteams. apply sorted_twice.
Qed.

Lemma league_teams_sorted_witness :
  League_init 7 2017 Demo.response = Ok Demo.league ∧
  teams_sorted Demo.league = [1; 0; 2]%nat ∧
  teams_sorted Demo.league = teams Demo.league.
Proof.
  split; [vm_compute; reflexivity|]. split; [vm_compute; reflexivity|].
  apply (league_teams_sorted 7 2017 Demo.response Demo.league).
  vm_compute. reflexivity.
Defined.

(** ** [Matchup] and [League.scoreboard] *)

Lemma getitem_1 {A} (l : list A) :
  getitem l 1 = match l with _ :: x :: _ => Ok x | _ => Raise IndexError end.
Proof.
  destruct l as [|x [|y l]]; [done..|]. unfold getitem.
  rewrite position_in_range by (cbn [length]; lia). done.
Qed.

(** X14: which matchups can be constructed.  An empty team list raises
    [IndexError], and so does a game whose first team is the home side when
    no second team is listed; with a second team that game gets its away
    side from [teams[1]]; every other matchup with a first team is
    constructed without an away side. *)
Theorem matchup_init_cases (data : ScoreboardJson.matchup) :
  (ScoreboardJson.teams data = [] → Matchup_init data = Raise IndexError) ∧
  (∀ t0, ScoreboardJson.teams data = [t0] →
     ScoreboardJson.home t0 = true → ScoreboardJson.bye data = false →
     Matchup_init data = Raise IndexError) ∧
  (∀ t0 t1 rest, ScoreboardJson.teams data = t0 :: t1 :: rest →
     ScoreboardJson.home t0 = true → ScoreboardJson.bye data = false →
     Matchup_init data =
       Ok (mkMatchup (RawId (ScoreboardJson.teamId t0)) (ScoreboardJson.score t0)
                     (Some (RawId (ScoreboardJson.teamId t1)))
                     (Some (ScoreboardJson.score t1)))) ∧
  (∀ t0 rest, ScoreboardJson.teams data = t0 :: rest →
     ScoreboardJson.home t0 = false ∨ ScoreboardJson.bye data = true →
     Matchup_init data =
       Ok (mkMatchup (RawId (ScoreboardJson.teamId t0)) (ScoreboardJson.score t0)
                     None None)).
Proof.
  unfold Matchup_init, _fetch_matchup_info, home_first. unfold_bind.
  rewrite getitem_0, getitem_1. repeat split.
  - by intros ->.
  - intros t0 -> -> ->. done.
  - intros t0 t1 rest -> -> ->. done.
  - intros t0 rest -> [->| ->]; [done|].
    destruct (ScoreboardJson.home t0); done.
Qed.

Lemma matchup_init_cases_witness :
  Matchup_init Inputs.away_first = Ok (mkMatchup (RawId 4) 88 None None) ∧
  Matchup_init {| ScoreboardJson.teams := [Board.side true 4 88];
                  ScoreboardJson.bye := false |} = Raise IndexError.
Proof.
  split.
  - destruct (matchup_init_cases Inputs.away_first) as (_ & _ & _ & H).
    apply (H (Board.side false 4 88) [Board.side true 9 77]);
      [reflexivity|by left].
  - destruct (matchup_init_cases
                {| ScoreboardJson.teams := [Board.side true 4 88];
                   ScoreboardJson.bye := false |}) as (_ & H & _).
    apply (H (Board.side true 4 88)); reflexivity.
Defined.

Lemma find_team_cons st a rest id :
  find_team st (a :: rest) id =
  if id =? team_id_at st a then Some a else find_team st rest id.
Proof. done. Qed.

Lemma resolve_step st a t rest (m : Matchup) :
  st !! a = Some t →
  resolved_matchup st rest (resolve_sides (team_id t) a m) =
  resolved_matchup st (a :: rest) m.
Proof.
  intros Ha.
  assert (∀ x, resolved_side st rest
                 (if is_team_id x (team_id t) then TeamObj a else x) =
               resolved_side st (a :: rest) x) as Hside.
  { intros [i|c]; [|done]. unfold resolved_side at 2.
    rewrite find_team_cons. unfold team_id_at. rewrite Ha. cbn [is_team_id].
    by destruct (i =? team_id t). }
  unfold resolved_matchup, resolve_sides. cbn. f_equal; [apply Hside|].
  destruct (away_team m) as [x|]; cbn; [|done].
  rewrite <- Hside. by destruct (is_team_id x (team_id t)).
Qed.

Lemma resolve_loop st addrs : ∀ res,
  Forall (λ a, is_Some (st !! a)) addrs →
  for_each (resolve_team st) res addrs = Ok (resolved_matchup st addrs <$> res).
Proof.
  induction addrs as [|a addrs IH]; intros res Hvalid; cbn [for_each].
  - f_equal. rewrite <- (list_fmap_id res) at 1. apply list_fmap_ext.
    intros _ [h hs aw aws] _. unfold resolved_matchup. cbn.
    f_equal; [by destruct h|]. by destruct aw as [[|]|].
  - apply Forall_cons in Hvalid as [[t Ha] Hvalid].
    unfold resolve_team at 1, team_at. unfold_bind. rewrite Ha.
    rewrite IH by done. f_equal. rewrite <- list_fmap_compose.
    apply list_fmap_ext. intros _ m _. by apply resolve_step.
Qed.

(** X15: on a 200 answer [scoreboard] returns one matchup per matchup of the
    feed, in the feed's order and with the feed's scores; a side whose id is
    the id of a team of the league becomes that team object (the first such
    team in [self.teams]), any other side stays the raw id, and a missing
    away side stays [None].  The league is left with status 200 and with its
    teams as they were. *)
Theorem scoreboard_resolves_sides (r : Response) (self : League) data board ms :
  status_code r = 200 → body r = Some data →
  scoreboard_of data = Some board →
  comprehension Matchup_init (ScoreboardJson.matchups board) = Ok ms →
  Forall (λ a, is_Some (store self !! a)) (teams self) →
  (scoreboard r self).1 =
    Ok (resolved_matchup (store self) (teams self) <$> ms) ∧
  length ms = length (ScoreboardJson.matchups board) ∧
  (scoreboard r self).2 =
    mkLeague (league_id self) (year self) (Some 200) (store self) (teams self).
Proof.
  intros H200 Hbody Hboard Hms Hvalid.
  unfold scoreboard, json, check_status, item. cbn. unfold_bind.
  rewrite Hbody, H200, Hboard, Hms. cbn.
  split; [by apply resolve_loop|]. split; [|done].
  apply comprehension_inv, Forall2_length in Hms. lia.
Qed.

Lemma scoreboard_resolves_sides_witness :
  (scoreboard Board.response Demo.league).1 =
    Ok [ mkMatchup (TeamObj 1) 100 (Some (TeamObj 0)) (Some 90);
         mkMatchup (RawId 9) 80 None None ].
Proof.
  apply (scoreboard_resolves_sides Board.response Demo.league
           (Build_Json None None (Some Board.week1)) Board.week1
           [ mkMatchup (RawId 1) 100 (Some (RawId 2)) (Some 90);
             mkMatchup (RawId 9) 80 None None ]).
  - reflexivity.
  - reflexivity.
  - reflexivity.
  - vm_compute. reflexivity.
  - cbn. repeat constructor; by eexists.
Defined.

(** X16: what is raised when the answer is not the document that the status
    promises, for [League(...)] as for [scoreboard].  [r.json()] runs before
    the status is looked at, so an undecodable body raises [ValueError]
    whatever the status (401 and 404 included); a 401 or 404 document
    without the key [error] raises [KeyError], with an empty [error] list
    [IndexError]; and a 200 document without [leaguesettings] (or
    [scoreboard]) raises [KeyError] for that key. *)
Theorem incomplete_answers_raise id yr (r : Response) (self : League) :
  (body r = None →
   League_init id yr r = Raise ValueError ∧
   (scoreboard r self).1 = Raise ValueError) ∧
  (∀ data, body r = Some data →
     status_code r = 401 ∨ status_code r = 404 →
     (error data = None →
      League_init id yr r = Raise (KeyError "error") ∧
      (scoreboard r self).1 = Raise (KeyError "error")) ∧
     (error data = Some [] →
      League_init id yr r = Raise IndexError ∧
      (scoreboard r self).1 = Raise IndexError)) ∧
  (∀ data, body r = Some data → status_code r = 200 →
     (leaguesettings data = None →
      League_init id yr r = Raise (KeyError "leaguesettings")) ∧
     (scoreboard_of data = None →
      (scoreboard r self).1 = Raise (KeyError "scoreboard"))).
Proof.
  unfold League_init, _fetch_league, scoreboard, json, check_status,
    error_message, _fetch_teams, item.
  cbn. unfold_bind. split; [|split].
  - intros Hbody. rewrite Hbody. by split.
  - intros data Hbody Hst. rewrite Hbody.
    split; intros Herr; rewrite Herr; destruct Hst as [-> | ->]; by split.
  - intros data Hbody H200. rewrite Hbody, H200.
    split; intros Hkey; by rewrite Hkey.
Qed.

Lemma incomplete_answers_raise_witness :
  League_init 7 2017 {| status_code := 401; body := None |} = Raise ValueError ∧
  (scoreboard {| status_code := 401; body := None |} Demo.league).1
  = Raise ValueError.
Proof.
  apply (incomplete_answers_raise 7 2017 {| status_code := 401; body := None |}
           Demo.league).
  reflexivity.
Defined.
